(** * ts-result: the [Result<T, E>] type of [src/result.ts]

    A shallow embedding of the two variant classes [OkImpl] and [ErrImpl],
    the factory functions [Ok] and [Err], the [UnwrapError] class and the
    private helper [formatValue], together with the properties the
    specification states about them.

    The embedding follows the run-time behaviour of the compiled
    TypeScript: type parameters are erased, every payload is a JavaScript
    value, [Result] objects live in a store and are referred to by
    location (so that [return this] and [new OkImpl(...)] can be told
    apart), callbacks are functions that may allocate and may throw, and
    [throw] is an abrupt completion.  What the host does with an object
    of the program inside [JSON.stringify] and [Object.prototype.toString]
    runs code of the program; it is a parameter of the model
    ([HostObjects]). *)

From Stdlib Require Import ZArith String Ascii List Lia Bool.
From Stdlib Require Import Floats DecimalString.
From stdpp Require Import base list strings.

Set Warnings "-inexact-float".
Open Scope Z_scope.

(** ** JavaScript values *)

(** A location in the object store. *)
Abbreviation loc := nat (only parsing).

(** The primitive values.  A number is an IEEE 754 binary64 value, a
    string is a sequence of code units (here the code units below 256). *)
Inductive Primitive : Type :=
| PUndefined
| PNull
| PBoolean (b : bool)
| PNumber (n : float)
| PString (s : string)
| PBigInt (z : Z)
| PSymbol (description : string).

(** A value is a primitive, a function (opaque as a payload: only its
    identity matters, and it has no properties of its own) or a
    reference to an object of the store. *)
Inductive JsValue : Type :=
| Prim (p : Primitive)
| JsFunction (name : string)
| JsObject (l : loc).

Abbreviation JsUndefined := (Prim PUndefined).
Abbreviation JsNull := (Prim PNull).
Abbreviation JsBoolean b := (Prim (PBoolean b)).
Abbreviation JsNumber n := (Prim (PNumber n)).
Abbreviation JsString s := (Prim (PString s)).

(** The objects of the store.  [OkImpl] and [ErrImpl] are the instances of
    the two classes of [result.ts]: the class of an object is its [_tag],
    and [value] / [error] is its one payload field.  [UnwrapError] is an
    instance of the error class of [result.ts] (its [name] is the constant
    ['UnwrapError']), [TypeError] an error raised by the host.  Object and
    array literals stand for all other objects of a program; the store
    records their data, and what [JSON.stringify] and
    [Object.prototype.toString] do with an object (its [toJSON] method,
    accessors, [Symbol.toStringTag], proxy traps) is given by
    [HostObjects] below. *)
Inductive Obj : Type :=
| OkImpl (value : JsValue)
| ErrImpl (error : JsValue)
| UnwrapError (message : string) (causeValue : JsValue)
| TypeError (message : string)
| ObjectLit (props : list (string * JsValue))
| ArrayLit (elems : list JsValue).

(** The [_tag] field of the two variant classes. *)
Definition _tag (o : Obj) : option string :=
  match o with
  | OkImpl _ => Some "Ok"%string
  | ErrImpl _ => Some "Err"%string
  | _ => None
  end.

(** ** Host operations used by [formatValue] *)

(** The [typeof] operator. *)
Definition typeof (v : JsValue) : string :=
  match v with
  | Prim PUndefined => "undefined"
  | Prim PNull => "object"
  | Prim (PBoolean _) => "boolean"
  | Prim (PNumber _) => "number"
  | Prim (PString _) => "string"
  | Prim (PBigInt _) => "bigint"
  | Prim (PSymbol _) => "symbol"
  | JsFunction _ => "function"
  | JsObject _ => "object"
  end%string.

(** [value === null] and [value === undefined]. *)
Definition is_null (value : JsValue) : bool :=
  match value with
  | Prim PNull => true
  | _ => false
  end.

Definition is_undefined (value : JsValue) : bool :=
  match value with
  | Prim PUndefined => true
  | _ => false
  end.

(** *** [Number::toString], radix 10 *)

Definition digits_of (z : Z) : string :=
  NilZero.string_of_uint (N.to_uint (Z.to_N z)).

Fixpoint zeros (n : nat) : string :=
  match n with
  | O => EmptyString
  | S n' => String "0" (zeros n')
  end.

Definition str_take (n : nat) (s : string) : string := substring 0 n s.

Definition str_drop (n : nat) (s : string) : string :=
  substring n (String.length s - n) s.

(** [s * 10^q] against a fraction with denominator [den]: the pair [(a, b)]
    is such that [s * 10^q ?= num / den] is [a ?= b * num]. *)
Definition scaled (s q den : Z) : Z * Z :=
  if 0 <=? q then (s * 10 ^ q * den, 1) else (s * den, 10 ^ (- q)).

Section ShortestDigits.

(** The number is [R / D]; the reals that round to it are those between
    [lo / D] and [hi / D], the ends included when [closed]. *)
Variables (R D lo hi : Z) (closed : bool).

Definition cmp_dec (s q num : Z) : comparison :=
  let '(a, b) := scaled s q D in a ?= b * num.

Definition in_interval (s q : Z) : bool :=
  match cmp_dec s q lo, cmp_dec s q hi with
  | Gt, Lt => true
  | Eq, Lt | Gt, Eq => closed
  | _, _ => false
  end.

(** The integer part of [(R / D) / 10^q]. *)
Definition floor_scaled (q : Z) : Z :=
  if 0 <=? q then R / (D * 10 ^ q) else (R * 10 ^ (- q)) / D.

(** The [n] with [10^(n-1) <= R / D < 10^n], searched downwards. *)
Fixpoint dec_exponent (fuel : nat) (n : Z) : Z :=
  match fuel with
  | O => n
  | S fuel' =>
      if 0 <? floor_scaled (n - 1) then n else dec_exponent fuel' (n - 1)
  end.

(** Whether [s * 10^q], below the number, is closer to it than
    [(s + 1) * 10^q], above it. *)
Definition closer_low (s q : Z) : comparison :=
  let '(a, b) := scaled (2 * s + 1) q D in (b * (2 * R)) ?= a.

(** The least number [k] of digits, with the digits [s] and the exponent
    [n], such that [s * 10^(n-k)] rounds to the number. *)
Fixpoint shortest (fuel : nat) (n k : Z) : Z * Z * Z :=
  let q := n - k in
  let s := floor_scaled q in
  let pick (c : Z) :=
    if c =? 10 ^ k then (10 ^ (k - 1), k, n + 1) else (c, k, n) in
  match fuel with
  | O => (s, k, n)
  | S fuel' =>
      match in_interval s q, in_interval (s + 1) q with
      | true, true =>
          match closer_low s q with
          | Lt => pick s
          | Gt => pick (s + 1)
          | Eq => pick (if Z.even s then s else s + 1)
          end
      | true, false => pick s
      | false, true => pick (s + 1)
      | false, false => shortest fuel' n (k + 1)
      end
  end.

End ShortestDigits.

(** The four layouts of [Number::toString] for the digits [s] ([k] of
    them) and the exponent [n]. *)
Definition render (s k n : Z) : string :=
  let ds := digits_of s in
  if (k <=? n) && (n <=? 21) then ds +:+ zeros (Z.to_nat (n - k))
  else if (0 <? n) && (n <=? 21) then
    str_take (Z.to_nat n) ds +:+ "." +:+ str_drop (Z.to_nat n) ds
  else if (-6 <? n) && (n <=? 0) then
    "0." +:+ zeros (Z.to_nat (- n)) +:+ ds
  else
    let e := n - 1 in
    let exp := (if 0 <? e then "+" else "-") +:+ digits_of (Z.abs e) in
    if k =? 1 then ds +:+ "e" +:+ exp
    else str_take 1 ds +:+ "." +:+ str_drop 1 ds +:+ "e" +:+ exp.

(** A positive finite binary64 value [m * 2^e]. *)
Definition finite_toString (m : positive) (e : Z) : string :=
  let m := Z.pos m in
  let boundary := (m =? 2 ^ 52) && (-1074 <? e) in
  let R := if 0 <=? e then 4 * m * 2 ^ e else 4 * m in
  let D := if 0 <=? e then 4 else 4 * 2 ^ (- e) in
  let hu := if 0 <=? e then 2 * 2 ^ e else 2 in
  let hl := if boundary then hu / 2 else hu in
  let n0 := (Z.log2 m + e + 1) * 30103 / 100000 + 2 in
  let '(s, k, n) :=
    shortest R D (R - hl) (R + hu) (Z.even m) 17 (dec_exponent R D 8 n0) 1 in
  render s k n.

Definition Number_toString (x : float) : string :=
  match Prim2SF x with
  | S754_nan => "NaN"
  | S754_zero _ => "0"
  | S754_infinity false => "Infinity"
  | S754_infinity true => "-Infinity"
  | S754_finite false m e => finite_toString m e
  | S754_finite true m e => "-" +:+ finite_toString m e
  end.

Definition Number_isFinite (x : float) : bool :=
  match Prim2SF x with
  | S754_nan | S754_infinity _ => false
  | _ => true
  end.

(** *** [String(value)] on primitives *)

Definition BigInt_toString (z : Z) : string :=
  if z <? 0 then "-" +:+ digits_of (- z) else digits_of z.

Definition String_ (p : Primitive) : string :=
  match p with
  | PUndefined => "undefined"
  | PNull => "null"
  | PBoolean true => "true"
  | PBoolean false => "false"
  | PNumber n => Number_toString n
  | PString s => s
  | PBigInt z => BigInt_toString z
  | PSymbol d => "Symbol(" +:+ d +:+ ")"
  end.

(** *** Strings inside a JSON text ([QuoteJSONString]) *)

Definition quote : string := String (ascii_of_nat 34) EmptyString.
Definition backslash : string := String (ascii_of_nat 92) EmptyString.

Definition hex_digit (n : nat) : ascii :=
  ascii_of_nat (if (n <? 10)%nat then 48 + n else 87 + n)%nat.

(** One code unit of a string inside a JSON text. *)
Definition escape_code_unit (c : ascii) : string :=
  let n := nat_of_ascii c in
  if (n =? 8)%nat then backslash +:+ "b"
  else if (n =? 9)%nat then backslash +:+ "t"
  else if (n =? 10)%nat then backslash +:+ "n"
  else if (n =? 12)%nat then backslash +:+ "f"
  else if (n =? 13)%nat then backslash +:+ "r"
  else if (n =? 34)%nat then backslash +:+ quote
  else if (n =? 92)%nat then backslash +:+ backslash
  else if (n <? 32)%nat then
    backslash +:+ "u00"
      +:+ String (hex_digit (n / 16)) (String (hex_digit (n mod 16)) EmptyString)
  else String c EmptyString.

Fixpoint escape_string (s : string) : string :=
  match s with
  | EmptyString => EmptyString
  | String c rest => escape_code_unit c +:+ escape_string rest
  end.

Definition QuoteJSONString (s : string) : string :=
  quote +:+ escape_string s +:+ quote.

(** ** Execution: the store, abrupt completion, callbacks *)

(** A statement completes normally with a value or abruptly with the
    thrown value. *)
Inductive Completion (A : Type) : Type :=
| Normal (a : A)
| Throw (thrown : JsValue).
Arguments Normal {A} a.
Arguments Throw {A} thrown.

(** The state a method runs in: the store, and the log of the calls the
    library made to the functions it was handed (the argument list of
    each call, latest first). *)
Record State : Type := mkState {
  heap : list Obj;
  invoked : list (list JsValue)
}.

Definition M (A : Type) : Type := State -> Completion A * State.

Definition ret {A : Type} (a : A) : M A := fun s => (Normal a, s).

Definition bind {A B : Type} (c : M A) (k : A -> M B) : M B :=
  fun s =>
    match c s with
    | (Normal a, s') => k a s'
    | (Throw e, s') => (Throw e, s')
    end.

Declare Scope js_scope.
Delimit Scope js_scope with js.
Notation "x <- c ;; k" := (bind c (fun x => k))
  (at level 100, c at next level, right associativity) : js_scope.
Open Scope js_scope.

Definition throw {A : Type} (e : JsValue) : M A := fun s => (Throw e, s).

(** [try { body } catch (error) { handler }] *)
Definition try_catch {A : Type} (body : M A) (handler : JsValue -> M A) : M A :=
  fun s =>
    match body s with
    | (Normal a, s') => (Normal a, s')
    | (Throw e, s') => handler e s'
    end.

(** [new C(...)]: the object is appended to the store. *)
Definition new (o : Obj) : M JsValue :=
  fun s =>
    (Normal (JsObject (length (heap s))),
     mkState (heap s ++ [o]) (invoked s)).

Definition throw_TypeError {A : Type} (message : string) : M A :=
  e <- new (TypeError message) ;; throw e.

(** A function handed to the library: it takes one argument, may read and
    extend (or change) the store, and returns or throws.  A function is
    given by what it does with its argument: the [this] it is called
    with is not represented (an arrow function has none of its own).  A
    computation without argument is a [Thunk]. *)
Definition Fn : Type := JsValue -> list Obj -> Completion JsValue * list Obj.
Definition Thunk : Type := list Obj -> Completion JsValue * list Obj.

(** [f(arg)], logged. *)
Definition call (f : Fn) (arg : JsValue) : M JsValue :=
  fun s =>
    let '(c, h') := f arg (heap s) in
    (c, mkState h' ([arg] :: invoked s)).

(** [fn()], logged. *)
Definition call0 (fn : Thunk) : M JsValue :=
  fun s =>
    let '(c, h') := fn (heap s) in
    (c, mkState h' ([] :: invoked s)).

(** A function without effect. *)
Definition pure_fn (f : JsValue -> JsValue) : Fn := fun x h => (Normal (f x), h).

(** [x => g(f(x))] *)
Definition compose_fn (g f : Fn) : Fn :=
  fun x h =>
    match f x h with
    | (Normal y, h') => g y h'
    | (Throw e, h') => (Throw e, h')
    end.

(** The conversion of a template literal [`${p}`]. *)
Definition ToString (p : Primitive) : M string :=
  match p with
  | PSymbol _ => throw_TypeError "Cannot convert a Symbol value to a string"
  | _ => ret (String_ p)
  end.

(** ** The host and the objects of the program *)

(** What the host does when [JSON.stringify(value, null, 2)] and
    [Object.prototype.toString.call(value)] are given an object.  Both
    run code of the program on the way: a [toJSON] method, accessor
    properties, a [Symbol.toStringTag] getter, the traps of a proxy; and
    [JSON.stringify] walks the object graph, where it throws on a cycle
    and on a [BigInt].  So each is given with the program, as a function
    of the object and the store that returns or throws and leaves a
    store: for [JSON.stringify] the result is a string or [undefined]
    ([None]), for [Object.prototype.toString] a string. *)
Record HostObjects : Type := mkHost {
  JSON_stringify_object :
    loc -> list Obj -> Completion (option string) * list Obj;
  Object_toString_object :
    loc -> list Obj -> Completion string * list Obj
}.

(** A host operation run inside a method: it is no call by the library
    and is not logged. *)
Definition host_op {A : Type}
    (op : list Obj -> Completion A * list Obj) : M A :=
  fun s =>
    let '(c, h') := op (heap s) in
    (c, mkState h' (invoked s)).

(** [JSON.stringify(value, null, 2)].  On a value that is not an object
    the prototypes being the built-in ones, no user code runs: a
    function (one without a [toJSON] of its own), a symbol and
    [undefined] have no JSON text and give [undefined]; a [BigInt]
    throws a [TypeError]. *)
Definition JSON_stringify (host : HostObjects) (value : JsValue)
    : M (option string) :=
  match value with
  | Prim PNull => ret (Some "null"%string)
  | Prim (PBoolean true) => ret (Some "true"%string)
  | Prim (PBoolean false) => ret (Some "false"%string)
  | Prim (PString s) => ret (Some (QuoteJSONString s))
  | Prim (PNumber n) =>
      ret (Some (if Number_isFinite n then Number_toString n
                 else "null"%string))
  | Prim (PBigInt _) => throw_TypeError "Do not know how to serialize a BigInt"
  | Prim PUndefined | Prim (PSymbol _) | JsFunction _ => ret None
  | JsObject l => host_op (JSON_stringify_object host l)
  end.

(** [Object.prototype.toString.call(value)], with the built-in
    prototypes for the values that are not objects. *)
Definition Object_prototype_toString (host : HostObjects) (value : JsValue)
    : M string :=
  match value with
  | Prim PUndefined => ret "[object Undefined]"
  | Prim PNull => ret "[object Null]"
  | Prim (PBoolean _) => ret "[object Boolean]"
  | Prim (PNumber _) => ret "[object Number]"
  | Prim (PString _) => ret "[object String]"
  | Prim (PBigInt _) => ret "[object BigInt]"
  | Prim (PSymbol _) => ret "[object Symbol]"
  | JsFunction _ => ret "[object Function]"
  | JsObject l => host_op (Object_toString_object host l)
  end%string.

(** ** [formatValue]

<<
function formatValue(value: unknown): string {
  if (typeof value === 'string') { return `"${value}"`; }
  if (typeof value === 'number' || typeof value === 'boolean' ||
      value === null || value === undefined) { return String(value); }
  try { return JSON.stringify(value, null, 2); }
  catch { return Object.prototype.toString.call(value); }
}
>>
    The declared result type is [string]; what the body hands back is
    whatever [JSON.stringify] returned, which may be [undefined], so the
    result is a primitive.  The [catch] has no binding and drops what
    [JSON.stringify] threw; the call in the [catch] block is not guarded,
    and what it throws leaves the function. *)
Definition formatValue (host : HostObjects) (value : JsValue) : M Primitive :=
  match value with
  | Prim (PString s) => ret (PString (quote +:+ s +:+ quote))
  | Prim (PNumber _ as p) | Prim (PBoolean _ as p)
  | Prim (PNull as p) | Prim (PUndefined as p) => ret (PString (String_ p))
  | _ =>
      try_catch
        (text <- JSON_stringify host value ;;
         ret match text with
             | Some t => PString t
             | None => PUndefined
             end)
        (fun _ =>
           tag <- Object_prototype_toString host value ;;
           ret (PString tag))
  end.

(** The optional parameter [msg?: string]: [undefined] when left out, or
    a string; [null], which [??] treats like [undefined], for callers
    outside TypeScript. *)
Inductive OptionalString : Type :=
| NoMsg
| NullMsg
| Msg (s : string).

(** [msg ?? dflt]: the right operand is evaluated only when needed. *)
Definition coalesce (msg : OptionalString) (dflt : M string) : M string :=
  match msg with
  | Msg s => ret s
  | NoMsg | NullMsg => dflt
  end.

(** ** [class UnwrapError extends Error]

<<
constructor(message: string, causeValue: unknown) {
  super(message);
  this.name = 'UnwrapError';
  this.causeValue = causeValue;
  if (Error.captureStackTrace) { Error.captureStackTrace(this, UnwrapError); }
}
>>
    The stack trace is not part of the model. *)
Definition new_UnwrapError (message : string) (causeValue : JsValue) : M JsValue :=
  new (UnwrapError message causeValue).

Definition name (o : Obj) : option string :=
  match o with
  | UnwrapError _ _ => Some "UnwrapError"%string
  | TypeError _ => Some "TypeError"%string
  | _ => None
  end.

(** ** [class OkImpl<T, E>]

    Every method takes the receiver [this], a location of the store. *)
Module OkImpl.

(** [new OkImpl(value)] *)
Definition constructor (value : JsValue) : M JsValue := new (OkImpl value).

(** [this.value] *)
Definition get_value (this : loc) : M JsValue :=
  fun s =>
    (Normal match heap s !! this with
            | Some (OkImpl value) => value
            | _ => JsUndefined
            end, s).

Definition isOk (this : loc) : M JsValue := ret (JsBoolean true).

Definition isErr (this : loc) : M JsValue := ret (JsBoolean false).

(** [return new OkImpl(mapper(this.value));] *)
Definition map (this : loc) (mapper : Fn) : M JsValue :=
  value <- get_value this ;;
  u <- call mapper value ;;
  constructor u.

(** [return this as unknown as Result<T, F>;] *)
Definition mapErr (this : loc) (_mapper : Fn) : M JsValue :=
  ret (JsObject this).

(** [return this.value;] *)
Definition unwrap (this : loc) (msg : OptionalString) : M JsValue :=
  get_value this.

(** [[
const message =
  msg ?? `Called unwrapErr on an Ok value: ${formatValue(this.value)}`;
throw new UnwrapError(message, this.value);
]] *)
Definition unwrapErr (host : HostObjects) (this : loc) (msg : OptionalString)
    : M JsValue :=
  message <- coalesce msg
    (value <- get_value this ;;
     formatted <- formatValue host value ;;
     text <- ToString formatted ;;
     ret ("Called unwrapErr on an Ok value: " +:+ text)) ;;
  value <- get_value this ;;
  e <- new_UnwrapError message value ;;
  throw e.

Definition unwrapOr (this : loc) (_defaultValue : JsValue) : M JsValue :=
  get_value this.

Definition unwrapOrElse (this : loc) (_op : Fn) : M JsValue :=
  get_value this.

(** [return op(this.value);] *)
Definition andThen (this : loc) (op : Fn) : M JsValue :=
  value <- get_value this ;;
  call op value.

(** [return this as unknown as Result<T, F>;] *)
Definition orElse (this : loc) (_op : Fn) : M JsValue :=
  ret (JsObject this).

(** [return matcher.Ok(this.value);]  The two handlers are the [Ok] and
    [Err] fields of [matcher]; the handler is called as a method of
    [matcher], a receiver that a [Fn] does not see. *)
Definition match_ (this : loc) (matcher_Ok matcher_Err : Fn) : M JsValue :=
  value <- get_value this ;;
  call matcher_Ok value.

(** [return res;] *)
Definition and (this : loc) (res : JsValue) : M JsValue := ret res.

(** [return this as unknown as Result<T, F>;] *)
Definition or (this : loc) (_res : JsValue) : M JsValue :=
  ret (JsObject this).

(** [return mapper(this.value);] *)
Definition mapOr (this : loc) (_defaultValue : JsValue) (mapper : Fn) : M JsValue :=
  value <- get_value this ;;
  call mapper value.

Definition mapOrElse (this : loc) (_defaultFn mapper : Fn) : M JsValue :=
  value <- get_value this ;;
  call mapper value.

End OkImpl.

(** ** [class ErrImpl<T, E>] *)
Module ErrImpl.

(** [new ErrImpl(error)] *)
Definition constructor (error : JsValue) : M JsValue := new (ErrImpl error).

(** [this.error] *)
Definition get_error (this : loc) : M JsValue :=
  fun s =>
    (Normal match heap s !! this with
            | Some (ErrImpl error) => error
            | _ => JsUndefined
            end, s).

Definition isOk (this : loc) : M JsValue := ret (JsBoolean false).

Definition isErr (this : loc) : M JsValue := ret (JsBoolean true).

(** [return this as unknown as Result<U, E>;] *)
Definition map (this : loc) (_mapper : Fn) : M JsValue :=
  ret (JsObject this).

(** [return new ErrImpl(mapper(this.error));] *)
Definition mapErr (this : loc) (mapper : Fn) : M JsValue :=
  error <- get_error this ;;
  f <- call mapper error ;;
  constructor f.

(** [[
const message =
  msg ?? `Called unwrap on an Err value: ${formatValue(this.error)}`;
throw new UnwrapError(message, this.error);
]] *)
Definition unwrap (host : HostObjects) (this : loc) (msg : OptionalString)
    : M JsValue :=
  message <- coalesce msg
    (error <- get_error this ;;
     formatted <- formatValue host error ;;
     text <- ToString formatted ;;
     ret ("Called unwrap on an Err value: " +:+ text)) ;;
  error <- get_error this ;;
  e <- new_UnwrapError message error ;;
  throw e.

(** [return this.error;] *)
Definition unwrapErr (this : loc) (_msg : OptionalString) : M JsValue :=
  get_error this.

Definition unwrapOr (this : loc) (defaultValue : JsValue) : M JsValue :=
  ret defaultValue.

(** [return op(this.error);] *)
Definition unwrapOrElse (this : loc) (op : Fn) : M JsValue :=
  error <- get_error this ;;
  call op error.

(** [return this as unknown as Result<U, E>;] *)
Definition andThen (this : loc) (_op : Fn) : M JsValue :=
  ret (JsObject this).

(** [return op(this.error);] *)
Definition orElse (this : loc) (op : Fn) : M JsValue :=
  error <- get_error this ;;
  call op error.

(** [return matcher.Err(this.error);]  As for [OkImpl], the receiver
    [matcher] of the handler is not represented. *)
Definition match_ (this : loc) (matcher_Ok matcher_Err : Fn) : M JsValue :=
  error <- get_error this ;;
  call matcher_Err error.

(** [return this as unknown as Result<U, E>;] *)
Definition and (this : loc) (_res : JsValue) : M JsValue :=
  ret (JsObject this).

(** [return res;] *)
Definition or (this : loc) (res : JsValue) : M JsValue := ret res.

Definition mapOr (this : loc) (defaultValue : JsValue) (_mapper : Fn) : M JsValue :=
  ret defaultValue.

(** [return defaultFn(this.error);] *)
Definition mapOrElse (this : loc) (defaultFn _mapper : Fn) : M JsValue :=
  error <- get_error this ;;
  call defaultFn error.

End ErrImpl.

(** ** The factory functions *)

(** [export function Ok<T>(value: T) { return new OkImpl(value); }] *)
Definition Ok (value : JsValue) : M JsValue := OkImpl.constructor value.

(** [export function Err<E>(error: E) { return new ErrImpl(error); }] *)
Definition Err (error : JsValue) : M JsValue := ErrImpl.constructor error.

(** ** [type Result<T, E> = Ok<T, E> | Err<T, E>]

    A method call [r.m(...)] on a value of the union runs the method of
    the class of [r].  On any other receiver the host throws a
    [TypeError]. *)
Module Result.

Definition dispatch (r : JsValue) (method : string)
    (ok err : loc -> M JsValue) : M JsValue :=
  fun s =>
    match r with
    | JsObject l =>
        match heap s !! l with
        | Some (OkImpl _) => ok l s
        | Some (ErrImpl _) => err l s
        | _ => throw_TypeError (method +:+ " is not a function") s
        end
    | _ => throw_TypeError (method +:+ " is not a function") s
    end.

Definition isOk (r : JsValue) : M JsValue :=
  dispatch r "isOk" OkImpl.isOk ErrImpl.isOk.

Definition isErr (r : JsValue) : M JsValue :=
  dispatch r "isErr" OkImpl.isErr ErrImpl.isErr.

Definition map (r : JsValue) (mapper : Fn) : M JsValue :=
  dispatch r "map" (fun this => OkImpl.map this mapper)
                   (fun this => ErrImpl.map this mapper).

Definition mapErr (r : JsValue) (mapper : Fn) : M JsValue :=
  dispatch r "mapErr" (fun this => OkImpl.mapErr this mapper)
                      (fun this => ErrImpl.mapErr this mapper).

Definition unwrap (host : HostObjects) (r : JsValue) (msg : OptionalString)
    : M JsValue :=
  dispatch r "unwrap" (fun this => OkImpl.unwrap this msg)
                      (fun this => ErrImpl.unwrap host this msg).

Definition unwrapErr (host : HostObjects) (r : JsValue) (msg : OptionalString)
    : M JsValue :=
  dispatch r "unwrapErr" (fun this => OkImpl.unwrapErr host this msg)
                         (fun this => ErrImpl.unwrapErr this msg).

Definition unwrapOr (r : JsValue) (defaultValue : JsValue) : M JsValue :=
  dispatch r "unwrapOr" (fun this => OkImpl.unwrapOr this defaultValue)
                        (fun this => ErrImpl.unwrapOr this defaultValue).

Definition unwrapOrElse (r : JsValue) (op : Fn) : M JsValue :=
  dispatch r "unwrapOrElse" (fun this => OkImpl.unwrapOrElse this op)
                            (fun this => ErrImpl.unwrapOrElse this op).

Definition andThen (r : JsValue) (op : Fn) : M JsValue :=
  dispatch r "andThen" (fun this => OkImpl.andThen this op)
                       (fun this => ErrImpl.andThen this op).

Definition orElse (r : JsValue) (op : Fn) : M JsValue :=
  dispatch r "orElse" (fun this => OkImpl.orElse this op)
                      (fun this => ErrImpl.orElse this op).

Definition match_ (r : JsValue) (matcher_Ok matcher_Err : Fn) : M JsValue :=
  dispatch r "match" (fun this => OkImpl.match_ this matcher_Ok matcher_Err)
                     (fun this => ErrImpl.match_ this matcher_Ok matcher_Err).

Definition and (r : JsValue) (res : JsValue) : M JsValue :=
  dispatch r "and" (fun this => OkImpl.and this res)
                   (fun this => ErrImpl.and this res).

Definition or (r : JsValue) (res : JsValue) : M JsValue :=
  dispatch r "or" (fun this => OkImpl.or this res)
                  (fun this => ErrImpl.or this res).

Definition mapOr (r : JsValue) (defaultValue : JsValue) (mapper : Fn) : M JsValue :=
  dispatch r "mapOr" (fun this => OkImpl.mapOr this defaultValue mapper)
                     (fun this => ErrImpl.mapOr this defaultValue mapper).

Definition mapOrElse (r : JsValue) (defaultFn mapper : Fn) : M JsValue :=
  dispatch r "mapOrElse" (fun this => OkImpl.mapOrElse this defaultFn mapper)
                         (fun this => ErrImpl.mapOrElse this defaultFn mapper).

End Result.

(** ** The escape hatch *)

(** Modelled from the spec: a settled promise, the outcome of the
    asynchronous computation handed to [catchesAsync].  [result.ts] has no
    asynchronous code; scheduling is not modelled, only the value or the
    rejection reason that [await] observes. *)
Inductive Promise : Type :=
| Fulfilled (value : JsValue)
| Rejected (reason : JsValue).

(** Modelled from the spec: a zero-argument computation that returns a
    promise (or throws before it returns one). *)
Definition AsyncThunk : Type := list Obj -> Completion Promise * list Obj.

(** Modelled from the spec: [fn()] for an asynchronous [fn], logged. *)
Definition call0_async (fn : AsyncThunk) : M Promise :=
  fun s =>
    let '(c, h') := fn (heap s) in
    (c, mkState h' ([] :: invoked s)).

(** Modelled from the spec: [await p] resumes with the value of a
    fulfilled promise and throws the reason of a rejected one. *)
Definition await (p : Promise) : M JsValue :=
  match p with
  | Fulfilled v => ret v
  | Rejected reason => throw reason
  end.

(** Modelled from the spec: the promise an [async] function returns,
    fulfilled with what its body returns, rejected with what it throws. *)
Definition async (body : M JsValue) : M Promise :=
  fun s =>
    match body s with
    | (Normal v, s') => (Normal (Fulfilled v), s')
    | (Throw e, s') => (Normal (Rejected e), s')
    end.

(** Modelled from the spec: the synchronous adapter of section 6, "run
    this computation, and if it raises an exception, capture it as Failure
    instead".  [result.ts] defines no such function; the body is the one
    the project's article lists:
<<
export function catches<T, E = unknown>(fn: () => T): Result<T, E> {
  try { return Ok(fn()); } catch (error) { return Err(error as E); }
}
>> *)
Definition catches (fn : Thunk) : M JsValue :=
  try_catch (v <- call0 fn ;; Ok v) (fun error => Err error).

(** Modelled from the spec: the asynchronous adapter of section 6, absent
    from [result.ts] like [catches]:
<<
export async function catchesAsync<T, E = unknown>(fn: () => Promise<T>) {
  try { return Ok(await fn()); } catch (error) { return Err(error as E); }
}
>> *)
Definition catchesAsync (fn : AsyncThunk) : M Promise :=
  async (try_catch (p <- call0_async fn ;; v <- await p ;; Ok v)
                   (fun error => Err error)).

(** ** Method calls as data, and what they leave in the store *)

(** A call of one of the methods of a [Result], with its arguments. *)
Inductive Method : Type :=
| Call_isOk
| Call_isErr
| Call_map (mapper : Fn)
| Call_mapErr (mapper : Fn)
| Call_unwrap (msg : OptionalString)
| Call_unwrapErr (msg : OptionalString)
| Call_unwrapOr (defaultValue : JsValue)
| Call_unwrapOrElse (op : Fn)
| Call_andThen (op : Fn)
| Call_orElse (op : Fn)
| Call_match (matcher_Ok matcher_Err : Fn)
| Call_and (res : JsValue)
| Call_or (res : JsValue)
| Call_mapOr (defaultValue : JsValue) (mapper : Fn)
| Call_mapOrElse (defaultFn mapper : Fn).

Definition invoke (host : HostObjects) (r : JsValue) (m : Method)
    : M JsValue :=
  match m with
  | Call_isOk => Result.isOk r
  | Call_isErr => Result.isErr r
  | Call_map mapper => Result.map r mapper
  | Call_mapErr mapper => Result.mapErr r mapper
  | Call_unwrap msg => Result.unwrap host r msg
  | Call_unwrapErr msg => Result.unwrapErr host r msg
  | Call_unwrapOr d => Result.unwrapOr r d
  | Call_unwrapOrElse op => Result.unwrapOrElse r op
  | Call_andThen op => Result.andThen r op
  | Call_orElse op => Result.orElse r op
  | Call_match ok err => Result.match_ r ok err
  | Call_and res => Result.and r res
  | Call_or res => Result.or r res
  | Call_mapOr d mapper => Result.mapOr r d mapper
  | Call_mapOrElse defaultFn mapper => Result.mapOrElse r defaultFn mapper
  end.

(** The functions a call hands to the library. *)
Definition callbacks (m : Method) : list Fn :=
  match m with
  | Call_map f | Call_mapErr f | Call_unwrapOrElse f
  | Call_andThen f | Call_orElse f | Call_mapOr _ f => [f]
  | Call_match f g | Call_mapOrElse f g => [f; g]
  | _ => []
  end.

(** A function that leaves the objects of the store as they are (it may
    add objects). *)
Definition keeps_store (f : Fn) : Prop :=
  forall (x : JsValue) (h : list Obj), h `prefix_of` (f x h).2.

(** The code of the program that the host runs on objects leaves the
    objects of the store as they are. *)
Definition host_keeps_store (host : HostObjects) : Prop :=
  forall (l : loc) (h : list Obj),
    h `prefix_of` (JSON_stringify_object host l h).2
    /\ h `prefix_of` (Object_toString_object host l h).2.

(** The host on objects such as
    [{ toJSON() { throw x }, get [Symbol.toStringTag]() { throw y } }]
    (or [{ n: 1n, get [Symbol.toStringTag]() { throw y } }], where [x] is
    the host's own [TypeError], or a revoked proxy): [JSON.stringify]
    throws [x] and [Object.prototype.toString.call] throws [y]. *)
Definition throwing_host (x y : JsValue) : HostObjects :=
  mkHost (fun _ h => (Throw x, h)) (fun _ h => (Throw y, h)).

(** Running [c] in [s] returns a reference to the object [o]. *)
Definition yields (c : M JsValue) (s : State) (o : Obj) : Prop :=
  exists l s', c s = (Normal (JsObject l), s') /\ heap s' !! l = Some o.

(** Running [c] in [s] throws an [UnwrapError] with this message and
    preserved payload. *)
Definition raises_UnwrapError (c : M JsValue) (s : State)
    (message : string) (causeValue : JsValue) : Prop :=
  exists l s',
    c s = (Throw (JsObject l), s')
    /\ heap s' !! l = Some (UnwrapError message causeValue).

(** Running [c] in [s] returns an object that did not exist in [s]. *)
Definition returns_new (c : M JsValue) (s : State) : Prop :=
  exists l s',
    c s = (Normal (JsObject l), s')
    /\ heap s !! l = None /\ is_Some (heap s' !! l).

(** [needle] occurs in [text]. *)
Definition contains (text needle : string) : Prop :=
  exists before after, text = before +:+ needle +:+ after.

(** Modelled from the spec: running the asynchronous adapter [c] in [s]
    returns a promise fulfilled with a reference to the object [o]. *)
Definition settles (c : M Promise) (s : State) (o : Obj) : Prop :=
  exists l s',
    c s = (Normal (Fulfilled (JsObject l)), s') /\ heap s' !! l = Some o.

(** A computation that leaves the objects of the store as they are. *)
Definition grows {A : Type} (c : M A) : Prop :=
  forall s : State, heap s `prefix_of` heap (c s).2.

(** ** Vocabulary of the further properties *)

(** Whether a [Result] object is of class [OkImpl], and its payload
    ([value] or [error]). *)
Definition is_Ok (o : Obj) : bool :=
  match o with
  | OkImpl _ => true
  | _ => false
  end.

Definition payload (o : Obj) : JsValue :=
  match o with
  | OkImpl value => value
  | ErrImpl error => error
  | _ => JsUndefined
  end.

(** [_ => d] *)
Definition const_fn (d : JsValue) : Fn := pure_fn (fun _ => d).

(** A function whose body is library code, [x => body(x)]: the calls the
    body makes are its own business and are not logged as calls by the
    library. *)
Definition closure (body : JsValue -> M JsValue) : Fn :=
  fun x h =>
    let '(c, s') := body x (mkState h []) in
    (c, heap s').

(** A function that always returns. *)
Definition never_throws (f : Fn) : Prop :=
  forall (x : JsValue) (h : list Obj), exists v h', f x h = (Normal v, h').

(** The method calls that call one of their functions, by the class of
    the receiver. *)
Definition invokes_callback (o : Obj) (m : Method) : bool :=
  match o, m with
  | OkImpl _, (Call_map _ | Call_andThen _ | Call_match _ _
               | Call_mapOr _ _ | Call_mapOrElse _ _) => true
  | ErrImpl _, (Call_mapErr _ | Call_unwrapOrElse _ | Call_orElse _
                | Call_match _ _ | Call_mapOrElse _ _) => true
  | _, _ => false
  end.

(** The two extractor calls that throw: [unwrap] on an [Err] and
    [unwrapErr] on an [Ok]. *)
Definition failing_extractor (o : Obj) (m : Method) : bool :=
  match o, m with
  | ErrImpl _, Call_unwrap _ | OkImpl _, Call_unwrapErr _ => true
  | _, _ => false
  end.

(** ** Data of the test suite *)

(** The state a test starts in. *)
Definition empty_state : State := mkState [] [].

(** * Properties *)

(** ** [formatValue] and the default messages *)

(** [formatValue] returns a string or [undefined], when it returns. *)
Lemma formatValue_result (host : HostObjects) (value : JsValue) (s : State) :
  match formatValue host value s with
  | (Normal t, _) => t = PUndefined \/ exists text, t = PString text
  | (Throw _, _) => True
  end.
Proof.
  destruct value as [[| |b|n|str|z|d]|f|l]; unfold formatValue;
    try (cbn [ret]; eauto; fail);
    unfold try_catch, bind;
    match goal with
    | |- context [JSON_stringify host ?v s] =>
        destruct (JSON_stringify host v s) as [[[text|]|x] s1];
        cbn [ret]; eauto;
        destruct (Object_prototype_toString host v s1) as [[tag|y] s2];
        cbn [ret]; eauto
    end.
Qed.

(** The conversion of what [formatValue] returned does not throw. *)
Lemma ToString_formatted (t : Primitive) (s : State) :
  (t = PUndefined \/ exists text, t = PString text) ->
  ToString t s = (Normal (String_ t), s).
Proof. intros [->|[text ->]]; reflexivity. Qed.

(** The default message of an extractor, once the payload is read. *)
Lemma bind_default (host : HostObjects) (get : M JsValue) (p : JsValue)
    (prefix : string) (s : State) :
  get s = (Normal p, s) ->
  forall k : string -> M JsValue,
    (message <-
       (v <- get ;;
        formatted <- formatValue host v ;;
        text <- ToString formatted ;;
        ret (prefix +:+ text)) ;;
     k message) s
    = match formatValue host p s with
      | (Normal t, s1) =>
          match ToString t s1 with
          | (Normal text, s2) => k (prefix +:+ text) s2
          | (Throw x, s2) => (Throw x, s2)
          end
      | (Throw x, s1) => (Throw x, s1)
      end.
Proof.
  intros Hget k. unfold bind. rewrite Hget.
  destruct (formatValue host p s) as [[t|x] s1]; [|reflexivity].
  destruct (ToString t s1) as [[text|x] s2]; reflexivity.
Qed.

(** ** The store *)

Lemma lookup_new (h : list Obj) (o : Obj) : (h ++ [o]) !! length h = Some o.
Proof. apply list_lookup_middle. reflexivity. Qed.

Lemma lookup_new_None (h : list Obj) : h !! length h = None.
Proof. apply lookup_ge_None_2. lia. Qed.

(** ** Dispatch and the methods of the two classes, on a receiver of the
    store *)

Section Receiver.

Variables (host : HostObjects) (s : State) (this : nat) (p : JsValue).

Section OnOk.

Hypothesis Hthis : heap s !! this = Some (OkImpl p).

Lemma dispatch_Ok (method : string) (ok err : nat -> M JsValue) :
  Result.dispatch (JsObject this) method ok err s = ok this s.
Proof. unfold Result.dispatch. rewrite Hthis. reflexivity. Qed.

Lemma Ok_get_value : OkImpl.get_value this s = (Normal p, s).
Proof. unfold OkImpl.get_value. rewrite Hthis. reflexivity. Qed.

Lemma Ok_unwrap (msg : OptionalString) :
  Result.unwrap host (JsObject this) msg s = (Normal p, s).
Proof. unfold Result.unwrap. rewrite dispatch_Ok. apply Ok_get_value. Qed.

Lemma Ok_unwrapErr (msg : OptionalString) :
  Result.unwrapErr host (JsObject this) msg s
  = match msg with
    | Msg m =>
        (Throw (JsObject (length (heap s))),
         mkState (heap s ++ [UnwrapError m p]) (invoked s))
    | NoMsg | NullMsg =>
        match formatValue host p s with
        | (Normal t, s1) =>
            (Throw (JsObject (length (heap s1))),
             mkState
               (heap s1 ++
                [UnwrapError
                   ("Called unwrapErr on an Ok value: " +:+ String_ t)
                   match heap s1 !! this with
                   | Some (OkImpl value) => value
                   | _ => JsUndefined
                   end])
               (invoked s1))
        | (Throw x, s1) => (Throw x, s1)
        end
    end.
Proof.
  unfold Result.unwrapErr. rewrite dispatch_Ok.
  unfold OkImpl.unwrapErr.
  destruct msg as [| |m]; cbn [coalesce];
    try (unfold bind, ret; rewrite Ok_get_value; reflexivity);
    rewrite (bind_default _ _ _ _ _ Ok_get_value);
    pose proof (formatValue_result host p s) as Hres;
    destruct (formatValue host p s) as [[t|x] s1]; [|reflexivity|
                                                      |reflexivity];
    rewrite (ToString_formatted t s1 Hres); reflexivity.
Qed.

Lemma Ok_map (mapper : Fn) :
  Result.map (JsObject this) mapper s
  = (u <- call mapper p ;; OkImpl.constructor u) s.
Proof.
  unfold Result.map. rewrite dispatch_Ok.
  unfold OkImpl.map, bind at 1. rewrite Ok_get_value. reflexivity.
Qed.

Lemma Ok_mapErr (mapper : Fn) :
  Result.mapErr (JsObject this) mapper s = (Normal (JsObject this), s).
Proof. unfold Result.mapErr. rewrite dispatch_Ok. reflexivity. Qed.

Lemma Ok_andThen (op : Fn) :
  Result.andThen (JsObject this) op s = call op p s.
Proof.
  unfold Result.andThen. rewrite dispatch_Ok.
  unfold OkImpl.andThen, bind. rewrite Ok_get_value. reflexivity.
Qed.

Lemma Ok_orElse (op : Fn) :
  Result.orElse (JsObject this) op s = (Normal (JsObject this), s).
Proof. unfold Result.orElse. rewrite dispatch_Ok. reflexivity. Qed.

Lemma Ok_and (res : JsValue) :
  Result.and (JsObject this) res s = (Normal res, s).
Proof. unfold Result.and. rewrite dispatch_Ok. reflexivity. Qed.

Lemma Ok_or (res : JsValue) :
  Result.or (JsObject this) res s = (Normal (JsObject this), s).
Proof. unfold Result.or. rewrite dispatch_Ok. reflexivity. Qed.

End OnOk.

Section OnErr.

Hypothesis Hthis : heap s !! this = Some (ErrImpl p).

Lemma dispatch_Err (method : string) (ok err : nat -> M JsValue) :
  Result.dispatch (JsObject this) method ok err s = err this s.
Proof. unfold Result.dispatch. rewrite Hthis. reflexivity. Qed.

Lemma Err_get_error : ErrImpl.get_error this s = (Normal p, s).
Proof. unfold ErrImpl.get_error. rewrite Hthis. reflexivity. Qed.

Lemma Err_unwrapErr (msg : OptionalString) :
  Result.unwrapErr host (JsObject this) msg s = (Normal p, s).
Proof. unfold Result.unwrapErr. rewrite dispatch_Err. apply Err_get_error. Qed.

Lemma Err_unwrap (msg : OptionalString) :
  Result.unwrap host (JsObject this) msg s
  = match msg with
    | Msg m =>
        (Throw (JsObject (length (heap s))),
         mkState (heap s ++ [UnwrapError m p]) (invoked s))
    | NoMsg | NullMsg =>
        match formatValue host p s with
        | (Normal t, s1) =>
            (Throw (JsObject (length (heap s1))),
             mkState
               (heap s1 ++
                [UnwrapError
                   ("Called unwrap on an Err value: " +:+ String_ t)
                   match heap s1 !! this with
                   | Some (ErrImpl error) => error
                   | _ => JsUndefined
                   end])
               (invoked s1))
        | (Throw x, s1) => (Throw x, s1)
        end
    end.
Proof.
  unfold Result.unwrap. rewrite dispatch_Err.
  unfold ErrImpl.unwrap.
  destruct msg as [| |m]; cbn [coalesce];
    try (unfold bind, ret; rewrite Err_get_error; reflexivity);
    rewrite (bind_default _ _ _ _ _ Err_get_error);
    pose proof (formatValue_result host p s) as Hres;
    destruct (formatValue host p s) as [[t|x] s1]; [|reflexivity|
                                                      |reflexivity];
    rewrite (ToString_formatted t s1 Hres); reflexivity.
Qed.

Lemma Err_map (mapper : Fn) :
  Result.map (JsObject this) mapper s = (Normal (JsObject this), s).
Proof. unfold Result.map. rewrite dispatch_Err. reflexivity. Qed.

Lemma Err_mapErr (mapper : Fn) :
  Result.mapErr (JsObject this) mapper s
  = (f <- call mapper p ;; ErrImpl.constructor f) s.
Proof.
  unfold Result.mapErr. rewrite dispatch_Err.
  unfold ErrImpl.mapErr, bind at 1. rewrite Err_get_error. reflexivity.
Qed.

Lemma Err_andThen (op : Fn) :
  Result.andThen (JsObject this) op s = (Normal (JsObject this), s).
Proof. unfold Result.andThen. rewrite dispatch_Err. reflexivity. Qed.

Lemma Err_orElse (op : Fn) :
  Result.orElse (JsObject this) op s = call op p s.
Proof.
  unfold Result.orElse. rewrite dispatch_Err.
  unfold ErrImpl.orElse, bind. rewrite Err_get_error. reflexivity.
Qed.

Lemma Err_and (res : JsValue) :
  Result.and (JsObject this) res s = (Normal (JsObject this), s).
Proof. unfold Result.and. rewrite dispatch_Err. reflexivity. Qed.

Lemma Err_or (res : JsValue) :
  Result.or (JsObject this) res s = (Normal res, s).
Proof. unfold Result.or. rewrite dispatch_Err. reflexivity. Qed.

End OnErr.

End Receiver.

(** The factory functions followed by the rest of a program. *)
Lemma Ok_then {A : Type} (v : JsValue) (k : JsValue -> M A) (s : State) :
  (r <- Ok v ;; k r) s
  = k (JsObject (length (heap s))) (mkState (heap s ++ [OkImpl v]) (invoked s)).
Proof. reflexivity. Qed.

Lemma Err_then {A : Type} (e : JsValue) (k : JsValue -> M A) (s : State) :
  (r <- Err e ;; k r) s
  = k (JsObject (length (heap s))) (mkState (heap s ++ [ErrImpl e]) (invoked s)).
Proof. reflexivity. Qed.

(** ** Methods only add objects to the store *)

Lemma grows_ret {A : Type} (a : A) : grows (ret a).
Proof. intros s. reflexivity. Qed.

Lemma grows_throw {A : Type} (e : JsValue) : grows (@throw A e).
Proof. intros s. reflexivity. Qed.

Lemma grows_new (o : Obj) : grows (new o).
Proof. intros s. simpl. apply prefix_app_r. reflexivity. Qed.

Lemma grows_bind {A B : Type} (c : M A) (k : A -> M B) :
  grows c -> (forall a, grows (k a)) -> grows (bind c k).
Proof.
  intros Hc Hk s. unfold bind. specialize (Hc s).
  destruct (c s) as [[a|e] s1]; simpl in *; [|exact Hc].
  etransitivity; [exact Hc | apply Hk].
Qed.

Lemma grows_call (f : Fn) (x : JsValue) : keeps_store f -> grows (call f x).
Proof.
  intros Hf s. unfold call. specialize (Hf x (heap s)).
  destruct (f x (heap s)) as [c h']. exact Hf.
Qed.

Lemma grows_throw_TypeError {A : Type} (message : string) :
  grows (@throw_TypeError A message).
Proof.
  unfold throw_TypeError. apply grows_bind; [apply grows_new|].
  intros a. apply grows_throw.
Qed.

Lemma grows_ToString (p : Primitive) : grows (ToString p).
Proof.
  destruct p; simpl; first [apply grows_ret | apply grows_throw_TypeError].
Qed.

Lemma grows_coalesce (msg : OptionalString) (dflt : M string) :
  grows dflt -> grows (coalesce msg dflt).
Proof. intros Hd. destruct msg; simpl; first [exact Hd | apply grows_ret]. Qed.

Lemma grows_get_value (this : nat) : grows (OkImpl.get_value this).
Proof. intros s. reflexivity. Qed.

Lemma grows_get_error (this : nat) : grows (ErrImpl.get_error this).
Proof. intros s. reflexivity. Qed.

Lemma grows_dispatch (r : JsValue) (method : string) (ok err : nat -> M JsValue) :
  (forall this, grows (ok this)) -> (forall this, grows (err this)) ->
  grows (Result.dispatch r method ok err).
Proof.
  intros Hok Herr s. unfold Result.dispatch.
  destruct r as [p|f|l]; try apply grows_throw_TypeError.
  destruct (heap s !! l) as [[]|];
    first [apply Hok | apply Herr | apply grows_throw_TypeError].
Qed.

Lemma grows_Ok_constructor (v : JsValue) : grows (OkImpl.constructor v).
Proof. apply grows_new. Qed.

Lemma grows_Err_constructor (e : JsValue) : grows (ErrImpl.constructor e).
Proof. apply grows_new. Qed.

Lemma grows_new_UnwrapError (message : string) (causeValue : JsValue) :
  grows (new_UnwrapError message causeValue).
Proof. apply grows_new. Qed.

Lemma grows_try_catch {A : Type} (body : M A) (handler : JsValue -> M A) :
  grows body -> (forall e, grows (handler e)) -> grows (try_catch body handler).
Proof.
  intros Hb Hh s. unfold try_catch. specialize (Hb s).
  destruct (body s) as [[a|e] s1]; simpl in *; [exact Hb|].
  etransitivity; [exact Hb | apply Hh].
Qed.

Lemma grows_JSON_stringify (host : HostObjects) (value : JsValue) :
  host_keeps_store host -> grows (JSON_stringify host value).
Proof.
  intros Hhost.
  destruct value as [[| |[]|n|str|z|d]|f|l]; simpl;
    try apply grows_ret; try apply grows_throw_TypeError.
  intros s. unfold host_op. destruct (Hhost l (heap s)) as [Hjson _].
  destruct (JSON_stringify_object host l (heap s)). exact Hjson.
Qed.

Lemma grows_Object_prototype_toString (host : HostObjects) (value : JsValue) :
  host_keeps_store host -> grows (Object_prototype_toString host value).
Proof.
  intros Hhost.
  destruct value as [[| |b|n|str|z|d]|f|l]; simpl; try apply grows_ret.
  intros s. unfold host_op. destruct (Hhost l (heap s)) as [_ Htag].
  destruct (Object_toString_object host l (heap s)). exact Htag.
Qed.

Lemma grows_formatValue (host : HostObjects) (value : JsValue) :
  host_keeps_store host -> grows (formatValue host value).
Proof.
  intros Hhost.
  assert (grows
            (try_catch
               (text <- JSON_stringify host value ;;
                ret match text with
                    | Some t => PString t
                    | None => PUndefined
                    end)
               (fun _ =>
                  tag <- Object_prototype_toString host value ;;
                  ret (PString tag)))) as Htry.
  { apply grows_try_catch; [|intros e];
      (apply grows_bind;
       [ first [ apply grows_JSON_stringify
               | apply grows_Object_prototype_toString ]; exact Hhost
       | intros a; apply grows_ret ]). }
  destruct value as [[| |b|n|str|z|d]|f|l]; unfold formatValue;
    first [apply grows_ret | exact Htry].
Qed.

Create HintDb store.
#[local] Hint Resolve grows_ret grows_throw grows_new
  grows_call grows_throw_TypeError grows_ToString grows_coalesce
  grows_get_value grows_get_error grows_Ok_constructor grows_Err_constructor
  grows_new_UnwrapError grows_formatValue : store.

Ltac grows_step :=
  first [ apply grows_bind; [|intros ?]
        | apply grows_coalesce
        | solve [auto with store] ].

Lemma invoke_grows (host : HostObjects) (r : JsValue) (m : Method) :
  host_keeps_store host ->
  Forall keeps_store (callbacks m) -> grows (invoke host r m).
Proof.
  intros Hhost Hcb.
  destruct m; simpl in Hcb;
    repeat match goal with
           | H : Forall _ (_ :: _) |- _ => apply Forall_cons in H; destruct H
           end;
    simpl; apply grows_dispatch; intros this;
    cbv beta delta
      [OkImpl.isOk OkImpl.isErr OkImpl.map OkImpl.mapErr OkImpl.unwrap
       OkImpl.unwrapErr OkImpl.unwrapOr OkImpl.unwrapOrElse OkImpl.andThen
       OkImpl.orElse OkImpl.match_ OkImpl.and OkImpl.or OkImpl.mapOr
       OkImpl.mapOrElse
       ErrImpl.isOk ErrImpl.isErr ErrImpl.map ErrImpl.mapErr ErrImpl.unwrap
       ErrImpl.unwrapErr ErrImpl.unwrapOr ErrImpl.unwrapOrElse ErrImpl.andThen
       ErrImpl.orElse ErrImpl.match_ ErrImpl.and ErrImpl.or ErrImpl.mapOr
       ErrImpl.mapOrElse];
    repeat grows_step.
Qed.

(** ** Unwrapping *)

(** What the two extractors do on the variant they are made for, and
    with a message of the caller's. *)
Lemma raises_Err_unwrap_Msg (host : HostObjects) (s : State) (p : JsValue)
    (m : string) :
  raises_UnwrapError (r <- Err p ;; Result.unwrap host r (Msg m)) s m p.
Proof.
  unfold raises_UnwrapError. rewrite Err_then.
  erewrite Err_unwrap by apply lookup_new.
  do 2 eexists. split; [reflexivity|]. apply lookup_new.
Qed.

Lemma raises_Ok_unwrapErr_Msg (host : HostObjects) (s : State) (p : JsValue)
    (m : string) :
  raises_UnwrapError (r <- Ok p ;; Result.unwrapErr host r (Msg m)) s m p.
Proof.
  unfold raises_UnwrapError. rewrite Ok_then.
  erewrite Ok_unwrapErr by apply lookup_new.
  do 2 eexists. split; [reflexivity|]. apply lookup_new.
Qed.

Lemma formatValue_throwing_host (x y : JsValue) (l : nat) (s : State) :
  formatValue (throwing_host x y) (JsObject l) s = (Throw y, s).
Proof. destruct s. reflexivity. Qed.

(** C1, at the payloads on which it fails.  On an object for which
    [JSON.stringify] throws and the call of [Object.prototype.toString]
    in the [catch] block of [formatValue] throws [y],
    [Err(e).unwrap()] and [Ok(v).unwrapErr()] throw [y]: no
    [UnwrapError] is built and the store holds nothing but the receiver.
    The other two laws hold on the same payload: [Ok(v).unwrap()] is [v]
    and [Err(e).unwrapErr()] is [e]. *)
Theorem unwrap_escapes (s : State) (l : nat) (x y : JsValue) :
  let host := throwing_host x y in
  let payload := JsObject l in
  (r <- Err payload ;; Result.unwrap host r NoMsg) s
    = (Throw y, mkState (heap s ++ [ErrImpl payload]) (invoked s))
  /\ (r <- Ok payload ;; Result.unwrapErr host r NoMsg) s
     = (Throw y, mkState (heap s ++ [OkImpl payload]) (invoked s))
  /\ (r <- Ok payload ;; Result.unwrap host r NoMsg) s
     = (Normal payload, mkState (heap s ++ [OkImpl payload]) (invoked s))
  /\ (r <- Err payload ;; Result.unwrapErr host r NoMsg) s
     = (Normal payload, mkState (heap s ++ [ErrImpl payload]) (invoked s)).
Proof.
  intros host payload. subst host payload. repeat split.
  - rewrite Err_then. erewrite Err_unwrap by apply lookup_new.
    rewrite formatValue_throwing_host. reflexivity.
  - rewrite Ok_then. erewrite Ok_unwrapErr by apply lookup_new.
    rewrite formatValue_throwing_host. reflexivity.
  - rewrite Ok_then. apply Ok_unwrap. apply lookup_new.
  - rewrite Err_then. apply Err_unwrapErr. apply lookup_new.
Qed.

(** ** Chaining and recovery *)

(** C2: [Ok(v).andThen(op)] is [op(v)]: the same completion and the same
    store as the call of [op] on [v].  [Err(e).andThen(op)] returns the
    failure it was called on, an [ErrImpl] with payload [e], and [op] is
    not called, whatever [op] is. *)
Theorem chaining_law (s : State) (p : JsValue) (op : Fn) :
  (r <- Ok p ;; Result.andThen r op) s = (_ <- Ok p ;; call op p) s
  /\ (r <- Err p ;; Result.andThen r op) s = Err p s
  /\ yields (r <- Err p ;; Result.andThen r op) s (ErrImpl p)
  /\ invoked ((r <- Err p ;; Result.andThen r op) s).2 = invoked s.
Proof.
  assert ((r <- Err p ;; Result.andThen r op) s = Err p s) as Herr.
  { rewrite Err_then. erewrite Err_andThen by apply lookup_new. reflexivity. }
  repeat split.
  - rewrite !Ok_then. apply Ok_andThen. apply lookup_new.
  - exact Herr.
  - unfold yields. rewrite Herr. do 2 eexists.
    split; [reflexivity|]. apply lookup_new.
  - rewrite Herr. reflexivity.
Qed.

(** C3: [Err(e).orElse(op)] is [op(e)]: the same completion and the same
    store as the call of [op] on [e].  [Ok(v).orElse(op)] returns the
    success it was called on, an [OkImpl] with payload [v], and [op] is not
    called, whatever [op] is. *)
Theorem recovery_law (s : State) (p : JsValue) (op : Fn) :
  (r <- Err p ;; Result.orElse r op) s = (_ <- Err p ;; call op p) s
  /\ (r <- Ok p ;; Result.orElse r op) s = Ok p s
  /\ yields (r <- Ok p ;; Result.orElse r op) s (OkImpl p)
  /\ invoked ((r <- Ok p ;; Result.orElse r op) s).2 = invoked s.
Proof.
  assert ((r <- Ok p ;; Result.orElse r op) s = Ok p s) as Hok.
  { rewrite Ok_then. erewrite Ok_orElse by apply lookup_new. reflexivity. }
  repeat split.
  - rewrite !Err_then. apply Err_orElse. apply lookup_new.
  - exact Hok.
  - unfold yields. rewrite Hok. do 2 eexists.
    split; [reflexivity|]. apply lookup_new.
  - rewrite Hok. reflexivity.
Qed.

(** ** Mapping *)

Lemma yields_Ok (s : State) (p : JsValue) : yields (Ok p) s (OkImpl p).
Proof. do 2 eexists. split; [reflexivity|]. apply lookup_new. Qed.

Lemma yields_Err (s : State) (p : JsValue) : yields (Err p) s (ErrImpl p).
Proof. do 2 eexists. split; [reflexivity|]. apply lookup_new. Qed.

Lemma Ok_map_pure (s : State) (this : nat) (p : JsValue)
    (f : JsValue -> JsValue) :
  heap s !! this = Some (OkImpl p) ->
  Result.map (JsObject this) (pure_fn f) s
  = (Normal (JsObject (length (heap s))),
     mkState (heap s ++ [OkImpl (f p)]) ([p] :: invoked s)).
Proof. intros Hthis. erewrite Ok_map by eassumption. reflexivity. Qed.

Lemma Err_mapErr_pure (s : State) (this : nat) (p : JsValue)
    (f : JsValue -> JsValue) :
  heap s !! this = Some (ErrImpl p) ->
  Result.mapErr (JsObject this) (pure_fn f) s
  = (Normal (JsObject (length (heap s))),
     mkState (heap s ++ [ErrImpl (f p)]) ([p] :: invoked s)).
Proof. intros Hthis. erewrite Err_mapErr by eassumption. reflexivity. Qed.

(** C5: [Ok(v).map(id)] is an [OkImpl] with payload [v], as [Ok(v)] is;
    [Err(e).mapErr(id)] is an [ErrImpl] with payload [e], as [Err(e)] is;
    and for pure [f] and [g], [Ok(v).map(f).map(g)] and
    [Ok(v).map(x => g(f(x)))] are both an [OkImpl] with payload
    [g(f(v))]. *)
Theorem functor_laws (s : State) (p : JsValue) (f g : JsValue -> JsValue) :
  (yields (r <- Ok p ;; Result.map r (pure_fn id)) s (OkImpl p)
   /\ yields (Ok p) s (OkImpl p))
  /\ (yields (r <- Err p ;; Result.mapErr r (pure_fn id)) s (ErrImpl p)
      /\ yields (Err p) s (ErrImpl p))
  /\ (yields (r <- Ok p ;;
              r' <- Result.map r (pure_fn f) ;;
              Result.map r' (pure_fn g)) s (OkImpl (g (f p)))
      /\ yields (r <- Ok p ;;
                 Result.map r (compose_fn (pure_fn g) (pure_fn f))) s
           (OkImpl (g (f p)))).
Proof.
  repeat split; try apply yields_Ok; try apply yields_Err.
  - unfold yields. rewrite Ok_then.
    erewrite Ok_map_pure by apply lookup_new.
    do 2 eexists. split; [reflexivity|]. apply lookup_new.
  - unfold yields. rewrite Err_then.
    erewrite Err_mapErr_pure by apply lookup_new.
    do 2 eexists. split; [reflexivity|]. apply lookup_new.
  - unfold yields. rewrite Ok_then. unfold bind at 1.
    erewrite Ok_map_pure by apply lookup_new.
    erewrite Ok_map_pure by apply lookup_new.
    do 2 eexists. split; [reflexivity|]. apply lookup_new.
  - unfold yields. rewrite Ok_then.
    erewrite Ok_map by apply lookup_new.
    do 2 eexists. split; [reflexivity|]. apply lookup_new.
Qed.

(** C6: [Err(e).map(f)] returns the failure it was called on, an [ErrImpl]
    with payload [e], and [f] is not called, whatever [f] is. *)
Theorem short_circuit_law (s : State) (e : JsValue) (f : Fn) :
  (r <- Err e ;; Result.map r f) s = Err e s
  /\ yields (r <- Err e ;; Result.map r f) s (ErrImpl e)
  /\ invoked ((r <- Err e ;; Result.map r f) s).2 = invoked s.
Proof.
  assert ((r <- Err e ;; Result.map r f) s = Err e s) as Herr.
  { rewrite Err_then. erewrite Err_map by apply lookup_new. reflexivity. }
  repeat split.
  - exact Herr.
  - unfold yields. rewrite Herr. do 2 eexists.
    split; [reflexivity|]. apply lookup_new.
  - rewrite Herr. reflexivity.
Qed.

(** ** The messages of [UnwrapError] *)

(** The extractors on a payload that [formatValue] renders without
    touching the state. *)
Lemma raises_Err_unwrap (host : HostObjects) (s : State) (p : JsValue)
    (msg : OptionalString) (t : Primitive) :
  (forall s1, formatValue host p s1 = (Normal t, s1)) ->
  raises_UnwrapError (r <- Err p ;; Result.unwrap host r msg) s
    match msg with
    | Msg m => m
    | NoMsg | NullMsg => "Called unwrap on an Err value: " +:+ String_ t
    end p.
Proof.
  intros Hfmt. unfold raises_UnwrapError. rewrite Err_then.
  erewrite Err_unwrap by apply lookup_new.
  destruct msg; rewrite ?Hfmt; cbn [heap invoked]; rewrite ?lookup_new;
    do 2 eexists; (split; [reflexivity|]); apply lookup_new.
Qed.

Lemma raises_Ok_unwrapErr (host : HostObjects) (s : State) (p : JsValue)
    (msg : OptionalString) (t : Primitive) :
  (forall s1, formatValue host p s1 = (Normal t, s1)) ->
  raises_UnwrapError (r <- Ok p ;; Result.unwrapErr host r msg) s
    match msg with
    | Msg m => m
    | NoMsg | NullMsg => "Called unwrapErr on an Ok value: " +:+ String_ t
    end p.
Proof.
  intros Hfmt. unfold raises_UnwrapError. rewrite Ok_then.
  erewrite Ok_unwrapErr by apply lookup_new.
  destruct msg; rewrite ?Hfmt; cbn [heap invoked]; rewrite ?lookup_new;
    do 2 eexists; (split; [reflexivity|]); apply lookup_new.
Qed.

(** C7: [Err("boom").unwrap()] throws an [UnwrapError] whose message is
    [Called unwrap on an Err value: "boom"], which contains the quoted
    string, and whose [causeValue] is the string [boom];
    [Err("boom").unwrap("custom")] throws one whose message is exactly
    [custom]. *)
Theorem unwrap_messages (host : HostObjects) (s : State) :
  raises_UnwrapError
    (r <- Err (JsString "boom") ;; Result.unwrap host r NoMsg) s
    ("Called unwrap on an Err value: " +:+ quote +:+ "boom" +:+ quote)
    (JsString "boom")
  /\ contains
       ("Called unwrap on an Err value: " +:+ quote +:+ "boom" +:+ quote)
       (quote +:+ "boom" +:+ quote)
  /\ raises_UnwrapError
       (r <- Err (JsString "boom") ;; Result.unwrap host r (Msg "custom")) s
       "custom" (JsString "boom").
Proof.
  split; [|split].
  - apply (raises_Err_unwrap host s (JsString "boom") NoMsg
             (PString (quote +:+ "boom" +:+ quote))).
    reflexivity.
  - exists "Called unwrap on an Err value: "%string, ""%string. reflexivity.
  - apply raises_Err_unwrap_Msg.
Qed.

Lemma formatValue_keeps_receiver (host : HostObjects) (p : JsValue)
    (s s1 : State) (o : Obj) (c : Completion Primitive) :
  host_keeps_store host ->
  formatValue host p (mkState (heap s ++ [o]) (invoked s)) = (c, s1) ->
  heap s1 !! length (heap s) = Some o.
Proof.
  intros Hhost Hrun.
  eapply prefix_lookup_Some; [apply lookup_new|].
  pose proof (grows_formatValue host p Hhost
                (mkState (heap s ++ [o]) (invoked s))) as Hgrows.
  rewrite Hrun in Hgrows. exact Hgrows.
Qed.


(** ** [formatValue] *)

Lemma formatValue_string (host : HostObjects) (str : string) (s : State) :
  formatValue host (JsString str) s
  = (Normal (PString (quote +:+ str +:+ quote)), s).
Proof. reflexivity. Qed.

Lemma formatValue_natural (host : HostObjects) (p : Primitive) (s : State) :
  match p with
  | PNumber _ | PBoolean _ | PNull | PUndefined => True
  | _ => False
  end ->
  formatValue host (Prim p) s = (Normal (PString (String_ p)), s).
Proof. destruct p; simpl; intros []; reflexivity. Qed.

Lemma JSON_stringify_undefined (host : HostObjects) (value : JsValue)
    (s : State) :
  match value with
  | Prim PUndefined | Prim (PSymbol _) | JsFunction _ => True
  | _ => False
  end ->
  JSON_stringify host value s = (Normal None, s).
Proof. destruct value as [[| |b|n|str|z|d]|f|l]; intros []; reflexivity. Qed.

(** A [BigInt]: [JSON.stringify] throws, the fallback gives the tag. *)
Lemma formatValue_BigInt (host : HostObjects) (z : Z) (s : State) :
  exists e,
    formatValue host (Prim (PBigInt z)) s
    = (Normal (PString "[object BigInt]"),
       mkState (heap s ++ [TypeError e]) (invoked s)).
Proof. eexists. reflexivity. Qed.

Lemma formatValue_function (host : HostObjects) (f : string) (s : State) :
  formatValue host (JsFunction f) s = (Normal PUndefined, s).
Proof. reflexivity. Qed.

(** C8, at the values on which it fails: for a function and for a symbol
    [JSON.stringify] returns [undefined] without throwing, so
    [formatValue] returns [undefined], not a string, and the default
    message of [unwrap] reads [undefined] for such a payload. *)
Theorem formatValue_undefined (host : HostObjects) (s : State) (f d : string) :
  formatValue host (JsFunction f) s = (Normal PUndefined, s)
  /\ formatValue host (Prim (PSymbol d)) s = (Normal PUndefined, s)
  /\ raises_UnwrapError
       (r <- Err (JsFunction f) ;; Result.unwrap host r NoMsg) s
       "Called unwrap on an Err value: undefined" (JsFunction f).
Proof.
  split; [reflexivity|]. split; [reflexivity|].
  apply (raises_Err_unwrap host s (JsFunction f) NoMsg PUndefined).
  intros s1. reflexivity.
Qed.

Lemma formatValue_number (host : HostObjects) (s : State) :
  formatValue host (JsNumber 123%float) s = (Normal (PString "123"), s).
Proof. vm_compute. reflexivity. Qed.

(** ** The escape hatch *)

(** C4: [catches(fn)] is [Ok(v)] when [fn()] returns [v] and [Err(X)] when
    [fn()] throws [X]; [catchesAsync(fn)] is a promise fulfilled with
    [Ok(v)] when the promise of [fn()] is fulfilled with [v], and with
    [Err(X)] when it is rejected with [X] or when [fn()] throws [X].  In
    no case does the adapter throw or reject. *)
Theorem escape_hatch (s : State) (fn : Thunk) (afn : AsyncThunk) :
  match fn (heap s) with
  | (Normal v, _) => yields (catches fn) s (OkImpl v)
  | (Throw X, _) => yields (catches fn) s (ErrImpl X)
  end
  /\ match afn (heap s) with
     | (Normal (Fulfilled v), _) => settles (catchesAsync afn) s (OkImpl v)
     | (Normal (Rejected X), _) | (Throw X, _) =>
         settles (catchesAsync afn) s (ErrImpl X)
     end.
Proof.
  split.
  - unfold yields, catches, try_catch, bind, call0.
    destruct (fn (heap s)) as [[v|X] h'];
      do 2 eexists; (split; [reflexivity|]); apply lookup_new.
  - unfold settles, catchesAsync, async, try_catch, bind, call0_async.
    destruct (afn (heap s)) as [[[v|X]|X] h'];
      do 2 eexists; (split; [reflexivity|]); apply lookup_new.
Qed.

(** The three branches of [formatValue] are the ones the source selects
    with [typeof] and the two comparisons. *)
Lemma formatValue_branches (host : HostObjects) (value : JsValue) (s : State) :
  if String.eqb (typeof value) "string" then
    exists str, value = JsString str
                /\ formatValue host value s
                   = (Normal (PString (quote +:+ str +:+ quote)), s)
  else if String.eqb (typeof value) "number"
          || String.eqb (typeof value) "boolean"
          || is_null value
          || is_undefined value then
    exists p, value = Prim p
              /\ formatValue host value s = (Normal (PString (String_ p)), s)
  else
    formatValue host value s
    = match JSON_stringify host value s with
      | (Normal (Some text), s1) => (Normal (PString text), s1)
      | (Normal None, s1) => (Normal PUndefined, s1)
      | (Throw _, s1) =>
          match Object_prototype_toString host value s1 with
          | (Normal tag, s2) => (Normal (PString tag), s2)
          | (Throw y, s2) => (Throw y, s2)
          end
      end.
Proof.
  destruct value as [[| |b|n|str|z|d]|f|l]; simpl;
    try (eexists; split; reflexivity); try reflexivity.
  all: unfold try_catch, bind.
  all: destruct (host_op (JSON_stringify_object host l) s) as [[[text|]|x] s1];
    try reflexivity.
  all: destruct (host_op (Object_toString_object host l) s1) as [[tag|y] s2];
    reflexivity.
Qed.

(** ** The store under the methods: tags and identity *)


(** What [new OkImpl(mapper(this.value))] returns: a reference to an
    object made after [mapper] returned, of the class [mk] and holding
    what [mapper] returned. *)
Lemma call_result_new (f : Fn) (x : JsValue) (mk : JsValue -> Obj)
    (s : State) (r : JsValue) (s' : State) :
  (u <- call f x ;; new (mk u)) s = (Normal r, s') ->
  exists l u s1,
    call f x s = (Normal u, s1)
    /\ r = JsObject l
    /\ heap s1 !! l = None
    /\ heap s' !! l = Some (mk u)
    /\ (keeps_store f -> heap s !! l = None).
Proof.
  intros Hrun. unfold bind, new in Hrun.
  destruct (call f x s) as [[u|e] s1] eqn:Hcall; [|discriminate].
  inversion Hrun; subst; clear Hrun. cbn [heap].
  exists (length (heap s1)), u, s1.
  split; [reflexivity|]. split; [reflexivity|].
  split; [apply lookup_ge_None_2; lia|].
  split; [apply lookup_new|].
  intros Hf. apply lookup_ge_None_2.
  pose proof (grows_call f x Hf s) as Hgrows.
  rewrite Hcall in Hgrows. apply prefix_length in Hgrows. exact Hgrows.
Qed.

Lemma pure_fn_keeps_store (f : JsValue -> JsValue) : keeps_store (pure_fn f).
Proof. intros x h. reflexivity. Qed.

Lemma throwing_host_keeps_store (x y : JsValue) :
  host_keeps_store (throwing_host x y).
Proof. intros l h. split; reflexivity. Qed.



(** ** Cases of the test suite *)

Lemma UnwrapError_name (message : string) (causeValue : JsValue) :
  name (UnwrapError message causeValue) = Some "UnwrapError"%string.
Proof. reflexivity. Qed.

(** [expect(() => Ok(123).unwrapErr()).toThrow('Called unwrapErr on an Ok
    value: 123')], with [causeValue] 123. *)
Example test_unwrapErr_on_Ok (host : HostObjects) :
  raises_UnwrapError
    (r <- Ok (JsNumber 123%float) ;; Result.unwrapErr host r NoMsg)
    empty_state "Called unwrapErr on an Ok value: 123" (JsNumber 123%float).
Proof.
  apply (raises_Ok_unwrapErr host empty_state (JsNumber 123%float) NoMsg
           (PString "123")).
  intros s1. apply formatValue_number.
Qed.

(** [Err('error1').and(Ok('value'))] is the first error;
    [Err('error').or(Ok(10))] is the second result. *)
Example test_and_or :
  yields (first <- Err (JsString "error1") ;;
          second <- Ok (JsString "value") ;;
          Result.and first second)
    empty_state (ErrImpl (JsString "error1"))
  /\ yields (first <- Err (JsString "error") ;;
             second <- Ok (JsNumber 10%float) ;;
             Result.or first second)
       empty_state (OkImpl (JsNumber 10%float)).
Proof. split; do 2 eexists; split; vm_compute; reflexivity. Qed.

(** [Err('error code 12').unwrapOr(10)] is 10 and [Ok(5).unwrapOr(10)]
    is 5. *)
Example test_unwrapOr :
  (r <- Err (JsString "error code 12") ;;
   Result.unwrapOr r (JsNumber 10%float)) empty_state
  = (Normal (JsNumber 10%float),
     mkState [ErrImpl (JsString "error code 12")] [])
  /\ (r <- Ok (JsNumber 5%float) ;;
      Result.unwrapOr r (JsNumber 10%float)) empty_state
     = (Normal (JsNumber 5%float), mkState [OkImpl (JsNumber 5%float)] []).
Proof. split; vm_compute; reflexivity. Qed.

(** * Further properties of the methods *)

(** ** Evaluation of the remaining methods on a receiver of the store *)

Ltac run_Ok H :=
  unfold Result.isOk, Result.isErr, Result.unwrapOr, Result.unwrapOrElse,
    Result.match_, Result.mapOr, Result.mapOrElse;
  rewrite (dispatch_Ok _ _ _ H);
  unfold OkImpl.isOk, OkImpl.isErr, OkImpl.unwrapOr, OkImpl.unwrapOrElse,
    OkImpl.match_, OkImpl.mapOr, OkImpl.mapOrElse, bind;
  rewrite ?(Ok_get_value _ _ _ H).

Ltac run_Err H :=
  unfold Result.isOk, Result.isErr, Result.unwrapOr, Result.unwrapOrElse,
    Result.match_, Result.mapOr, Result.mapOrElse;
  rewrite (dispatch_Err _ _ _ H);
  unfold ErrImpl.isOk, ErrImpl.isErr, ErrImpl.unwrapOr, ErrImpl.unwrapOrElse,
    ErrImpl.match_, ErrImpl.mapOr, ErrImpl.mapOrElse, bind;
  rewrite ?(Err_get_error _ _ _ H).

Section Remaining.

Variables (s : State) (this : nat) (p : JsValue).

Lemma Ok_isOk :
  heap s !! this = Some (OkImpl p) ->
  Result.isOk (JsObject this) s = (Normal (JsBoolean true), s)
  /\ Result.isErr (JsObject this) s = (Normal (JsBoolean false), s).
Proof. intros H. split; run_Ok H; reflexivity. Qed.

Lemma Err_isOk :
  heap s !! this = Some (ErrImpl p) ->
  Result.isOk (JsObject this) s = (Normal (JsBoolean false), s)
  /\ Result.isErr (JsObject this) s = (Normal (JsBoolean true), s).
Proof. intros H. split; run_Err H; reflexivity. Qed.

Lemma Ok_unwrapOr (d : JsValue) :
  heap s !! this = Some (OkImpl p) ->
  Result.unwrapOr (JsObject this) d s = (Normal p, s).
Proof. intros H. run_Ok H. reflexivity. Qed.

Lemma Err_unwrapOr (d : JsValue) :
  heap s !! this = Some (ErrImpl p) ->
  Result.unwrapOr (JsObject this) d s = (Normal d, s).
Proof. intros H. run_Err H. reflexivity. Qed.

Lemma Ok_unwrapOrElse (op : Fn) :
  heap s !! this = Some (OkImpl p) ->
  Result.unwrapOrElse (JsObject this) op s = (Normal p, s).
Proof. intros H. run_Ok H. reflexivity. Qed.

Lemma Err_unwrapOrElse (op : Fn) :
  heap s !! this = Some (ErrImpl p) ->
  Result.unwrapOrElse (JsObject this) op s = call op p s.
Proof. intros H. run_Err H. reflexivity. Qed.

Lemma Ok_match (f g : Fn) :
  heap s !! this = Some (OkImpl p) ->
  Result.match_ (JsObject this) f g s = call f p s.
Proof. intros H. run_Ok H. reflexivity. Qed.

Lemma Err_match (f g : Fn) :
  heap s !! this = Some (ErrImpl p) ->
  Result.match_ (JsObject this) f g s = call g p s.
Proof. intros H. run_Err H. reflexivity. Qed.

Lemma Ok_mapOr (d : JsValue) (f : Fn) :
  heap s !! this = Some (OkImpl p) ->
  Result.mapOr (JsObject this) d f s = call f p s.
Proof. intros H. run_Ok H. reflexivity. Qed.

Lemma Err_mapOr (d : JsValue) (f : Fn) :
  heap s !! this = Some (ErrImpl p) ->
  Result.mapOr (JsObject this) d f s = (Normal d, s).
Proof. intros H. run_Err H. reflexivity. Qed.

Lemma Ok_mapOrElse (g f : Fn) :
  heap s !! this = Some (OkImpl p) ->
  Result.mapOrElse (JsObject this) g f s = call f p s.
Proof. intros H. run_Ok H. reflexivity. Qed.

Lemma Err_mapOrElse (g f : Fn) :
  heap s !! this = Some (ErrImpl p) ->
  Result.mapOrElse (JsObject this) g f s = call g p s.
Proof. intros H. run_Err H. reflexivity. Qed.

End Remaining.

(** Every [Result] object is an [OkImpl] or an [ErrImpl]. *)
Lemma Result_cases (o : Obj) :
  is_Some (_tag o) ->
  (exists p, o = OkImpl p) \/ (exists p, o = ErrImpl p).
Proof.
  intros [t Ht]. destruct o; try discriminate Ht; eauto.
Qed.

Ltac by_class o Htag p :=
  destruct (Result_cases o Htag) as [[p ->] | [p ->]].

(** ** The guards and the extractors *)

(** A failing extractor with a message of the caller's, on a receiver
    of the store. *)
Lemma raises_unwrapErr_Msg (host : HostObjects) (s : State) (this : nat)
    (p : JsValue) (m : string) :
  heap s !! this = Some (OkImpl p) ->
  raises_UnwrapError (Result.unwrapErr host (JsObject this) (Msg m)) s m p.
Proof.
  intros Hthis. unfold raises_UnwrapError.
  rewrite (Ok_unwrapErr host s this p Hthis).
  do 2 eexists. split; [reflexivity|]. apply lookup_new.
Qed.

Lemma raises_unwrap_Msg (host : HostObjects) (s : State) (this : nat)
    (p : JsValue) (m : string) :
  heap s !! this = Some (ErrImpl p) ->
  raises_UnwrapError (Result.unwrap host (JsObject this) (Msg m)) s m p.
Proof.
  intros Hthis. unfold raises_UnwrapError.
  rewrite (Err_unwrap host s this p Hthis).
  do 2 eexists. split; [reflexivity|]. apply lookup_new.
Qed.

(** The failing extractors complete abruptly, whatever the message. *)
Lemma unwrapErr_throws (host : HostObjects) (s : State) (this : nat)
    (p : JsValue) (msg : OptionalString) :
  heap s !! this = Some (OkImpl p) ->
  exists e s', Result.unwrapErr host (JsObject this) msg s = (Throw e, s').
Proof.
  intros Hthis. rewrite (Ok_unwrapErr host s this p Hthis).
  destruct msg; try destruct (formatValue host p s) as [[t|x] s1]; eauto.
Qed.

Lemma unwrap_throws (host : HostObjects) (s : State) (this : nat)
    (p : JsValue) (msg : OptionalString) :
  heap s !! this = Some (ErrImpl p) ->
  exists e s', Result.unwrap host (JsObject this) msg s = (Throw e, s').
Proof.
  intros Hthis. rewrite (Err_unwrap host s this p Hthis).
  destruct msg; try destruct (formatValue host p s) as [[t|x] s1]; eauto.
Qed.

(** X1: on every [Result], [isOk()] and [isErr()] return opposite
    booleans and change nothing, and they predict the extractors:
    [unwrap] returns the payload, in the same state, when [isOk()] is
    true and completes abruptly otherwise; [unwrapErr] returns it when
    [isErr()] is true and completes abruptly otherwise.  With a message
    of the caller's, what the failing extractor throws is an
    [UnwrapError] with that message and the payload. *)
Theorem guards_predict_unwrap (host : HostObjects) (s : State) (this : nat)
    (o : Obj) (msg : OptionalString) :
  heap s !! this = Some o ->
  is_Some (_tag o) ->
  let r := JsObject this in
  let failing := if is_Ok o then Result.unwrapErr host r msg
                 else Result.unwrap host r msg in
  Result.isOk r s = (Normal (JsBoolean (is_Ok o)), s)
  /\ Result.isErr r s = (Normal (JsBoolean (negb (is_Ok o))), s)
  /\ (if is_Ok o then Result.unwrap host r msg s
      else Result.unwrapErr host r msg s) = (Normal (payload o), s)
  /\ (exists e s', failing s = (Throw e, s'))
  /\ match msg with
     | Msg m => raises_UnwrapError failing s m (payload o)
     | NoMsg | NullMsg => True
     end.
Proof.
  intros Hthis Htag r failing. subst r failing.
  by_class o Htag p; cbn [is_Ok payload negb].
  - destruct (Ok_isOk s this p Hthis) as [-> ->].
    repeat split; [apply (Ok_unwrap host s this p Hthis)| |].
    + apply (unwrapErr_throws host s this p msg Hthis).
    + destruct msg; try exact I. apply raises_unwrapErr_Msg, Hthis.
  - destruct (Err_isOk s this p Hthis) as [-> ->].
    repeat split; [apply (Err_unwrapErr host s this p Hthis)| |].
    + apply (unwrap_throws host s this p msg Hthis).
    + destruct msg; try exact I. apply raises_unwrap_Msg, Hthis.
Qed.

Lemma guards_predict_unwrap_witness :
  let host := throwing_host JsNull JsNull in
  let s := mkState [ErrImpl (JsString "fail")] [] in
  let r := JsObject 0 in
  Result.isOk r s = (Normal (JsBoolean false), s)
  /\ Result.isErr r s = (Normal (JsBoolean true), s)
  /\ Result.unwrapErr host r (Msg "m") s = (Normal (JsString "fail"), s)
  /\ (exists e s', Result.unwrap host r (Msg "m") s = (Throw e, s'))
  /\ raises_UnwrapError (Result.unwrap host r (Msg "m")) s "m"
       (JsString "fail").
Proof.
  apply (guards_predict_unwrap (throwing_host JsNull JsNull)
           (mkState [ErrImpl (JsString "fail")] []) 0
           (ErrImpl (JsString "fail")) (Msg "m")).
  - reflexivity.
  - exists "Err"%string. reflexivity.
Defined.

(** X2: [unwrapOrElse(op)] on an [Ok] returns the payload whatever [op]
    is, without calling it; on an [Err] it is the call of [op] on the
    error, with its completion (also a throw) and its store. *)
Theorem unwrapOrElse_spec (s : State) (this : nat) (o : Obj) (op : Fn) :
  heap s !! this = Some o ->
  is_Some (_tag o) ->
  Result.unwrapOrElse (JsObject this) op s
  = if is_Ok o then (Normal (payload o), s) else call op (payload o) s.
Proof.
  intros Hthis Htag. by_class o Htag p; cbn [is_Ok payload negb].
  - apply Ok_unwrapOrElse, Hthis.
  - apply Err_unwrapOrElse, Hthis.
Qed.

Lemma unwrapOrElse_spec_witness :
  let s := mkState [ErrImpl (JsString "oops")] [] in
  Result.unwrapOrElse (JsObject 0) (const_fn JsNull) s
  = call (const_fn JsNull) (JsString "oops") s.
Proof.
  apply (unwrapOrElse_spec (mkState [ErrImpl (JsString "oops")] []) 0
           (ErrImpl (JsString "oops")) (const_fn JsNull)).
  - reflexivity.
  - exists "Err"%string. reflexivity.
Defined.

(** X3: [unwrapOr(d)] never throws and leaves the state as it is; it
    returns the payload of an [Ok] and [d] for an [Err], which is what
    [unwrapOrElse(_ => d)] returns, in the same store. *)
Theorem unwrapOr_spec (s : State) (this : nat) (o : Obj) (d : JsValue) :
  heap s !! this = Some o ->
  is_Some (_tag o) ->
  Result.unwrapOr (JsObject this) d s
    = (Normal (if is_Ok o then payload o else d), s)
  /\ (Result.unwrapOrElse (JsObject this) (const_fn d) s).1
     = (Result.unwrapOr (JsObject this) d s).1
  /\ heap (Result.unwrapOrElse (JsObject this) (const_fn d) s).2 = heap s.
Proof.
  intros Hthis Htag. by_class o Htag p; cbn [is_Ok payload negb].
  - rewrite (Ok_unwrapOr s this p d Hthis), (Ok_unwrapOrElse s this p _ Hthis).
    auto.
  - rewrite (Err_unwrapOr s this p d Hthis), (Err_unwrapOrElse s this p _ Hthis).
    auto.
Qed.

Lemma unwrapOr_spec_witness :
  let s := mkState [ErrImpl (JsString "error")] [] in
  let d := JsString "fallback" in
  Result.unwrapOr (JsObject 0) d s = (Normal d, s)
  /\ (Result.unwrapOrElse (JsObject 0) (const_fn d) s).1
     = (Result.unwrapOr (JsObject 0) d s).1
  /\ heap (Result.unwrapOrElse (JsObject 0) (const_fn d) s).2 = heap s.
Proof.
  apply (unwrapOr_spec (mkState [ErrImpl (JsString "error")] []) 0
           (ErrImpl (JsString "error")) (JsString "fallback")).
  - reflexivity.
  - exists "Err"%string. reflexivity.
Defined.

(** ** Matching and the folds *)

(** X4: [match({Ok, Err})] calls exactly one handler, the one of the
    receiver's class, exactly once, on the payload: its completion and
    store are those of that call, and the log gains that one call. *)
Theorem match_one_handler (s : State) (this : nat) (o : Obj) (f g : Fn) :
  heap s !! this = Some o ->
  is_Some (_tag o) ->
  Result.match_ (JsObject this) f g s
    = call (if is_Ok o then f else g) (payload o) s
  /\ invoked (Result.match_ (JsObject this) f g s).2
     = [payload o] :: invoked s.
Proof.
  intros Hthis Htag.
  assert (Result.match_ (JsObject this) f g s
          = call (if is_Ok o then f else g) (payload o) s) as Hrun.
  { by_class o Htag p; cbn [is_Ok payload negb].
    - apply Ok_match, Hthis.
    - apply Err_match, Hthis. }
  split; [exact Hrun|]. rewrite Hrun. unfold call.
  destruct ((if is_Ok o then f else g) (payload o) (heap s)). reflexivity.
Qed.

Lemma match_one_handler_witness :
  let s := mkState [OkImpl (JsString "v")] [] in
  let f := const_fn (JsString "S") in
  let g := const_fn (JsString "F") in
  Result.match_ (JsObject 0) f g s = call f (JsString "v") s
  /\ invoked (Result.match_ (JsObject 0) f g s).2 = [[JsString "v"]].
Proof.
  apply (match_one_handler (mkState [OkImpl (JsString "v")] []) 0
           (OkImpl (JsString "v")) (const_fn (JsString "S"))
           (const_fn (JsString "F"))).
  - reflexivity.
  - exists "Ok"%string. reflexivity.
Defined.

(** X6: [mapOr(d, f)] completes as [map(f).unwrapOr(d)] does, with the
    same value or the same throw, and the same calls; it only spares
    the intermediate [Result]. *)
Theorem mapOr_is_map_unwrapOr (s : State) (this : nat) (o : Obj)
    (d : JsValue) (f : Fn) :
  heap s !! this = Some o ->
  is_Some (_tag o) ->
  let direct := Result.mapOr (JsObject this) d f s in
  let staged :=
    (r <- Result.map (JsObject this) f ;; Result.unwrapOr r d) s in
  direct.1 = staged.1
  /\ invoked direct.2 = invoked staged.2
  /\ heap direct.2 `prefix_of` heap staged.2.
Proof.
  intros Hthis Htag direct staged. subst direct staged.
  by_class o Htag p.
  - assert ((r <- Result.map (JsObject this) f ;; Result.unwrapOr r d) s
            = match f p (heap s) with
              | (Normal u, h') =>
                  (Normal u, mkState (h' ++ [OkImpl u]) ([p] :: invoked s))
              | (Throw e, h') => (Throw e, mkState h' ([p] :: invoked s))
              end) as ->.
    { unfold bind at 1. rewrite (Ok_map s this p Hthis f).
      unfold bind, call, OkImpl.constructor, new.
      destruct (f p (heap s)) as [[u|e] h']; cbn [heap invoked];
        [|reflexivity].
      apply Ok_unwrapOr. apply lookup_new. }
    rewrite (Ok_mapOr s this p d f Hthis). unfold call.
    destruct (f p (heap s)) as [[u|e] h']; cbn [fst snd heap invoked];
      repeat split; try reflexivity.
    apply prefix_app_r. reflexivity.
  - unfold bind. rewrite (Err_map s this p Hthis f).
    rewrite (Err_mapOr s this p d f Hthis), (Err_unwrapOr s this p d Hthis).
    repeat split; reflexivity.
Qed.

Lemma mapOr_is_map_unwrapOr_witness :
  let s := mkState [OkImpl (JsString "v")] [] in
  let d := JsString "default" in
  let f := const_fn (JsString "mapped") in
  let direct := Result.mapOr (JsObject 0) d f s in
  let staged := (r <- Result.map (JsObject 0) f ;; Result.unwrapOr r d) s in
  direct.1 = staged.1
  /\ invoked direct.2 = invoked staged.2
  /\ heap direct.2 `prefix_of` heap staged.2.
Proof.
  apply (mapOr_is_map_unwrapOr (mkState [OkImpl (JsString "v")] []) 0
           (OkImpl (JsString "v")) (JsString "default")
           (const_fn (JsString "mapped"))).
  - reflexivity.
  - exists "Ok"%string. reflexivity.
Defined.

(** ** The boolean combinators *)

(** X7: for two [Result]s, [a.and(b)] is [b] when [a] is an [Ok] and [a]
    otherwise, so it is an [Ok] exactly when both are; [a.or(b)] is [a]
    when [a] is an [Ok] and [b] otherwise, so it is an [Ok] exactly when
    one of them is.  Both return one of their operands, not a copy, and
    change nothing. *)
Theorem and_or_truth_table (s : State) (a b : nat) (oa ob : Obj) :
  heap s !! a = Some oa -> is_Some (_tag oa) ->
  heap s !! b = Some ob -> is_Some (_tag ob) ->
  Result.and (JsObject a) (JsObject b) s
    = (Normal (JsObject (if is_Ok oa then b else a)), s)
  /\ Result.or (JsObject a) (JsObject b) s
     = (Normal (JsObject (if is_Ok oa then a else b)), s)
  /\ is_Ok (if is_Ok oa then ob else oa) = is_Ok oa && is_Ok ob
  /\ is_Ok (if is_Ok oa then oa else ob) = is_Ok oa || is_Ok ob.
Proof.
  intros Ha Htaga Hb Htagb. by_class oa Htaga p; cbn [is_Ok payload negb andb orb].
  - rewrite (Ok_and s a p Ha), (Ok_or s a p Ha). auto.
  - rewrite (Err_and s a p Ha), (Err_or s a p Ha). auto.
Qed.

Lemma and_or_truth_table_witness :
  let s := mkState [ErrImpl (JsString "e"); OkImpl (JsString "x")] [] in
  Result.and (JsObject 0) (JsObject 1) s = (Normal (JsObject 0), s)
  /\ Result.or (JsObject 0) (JsObject 1) s = (Normal (JsObject 1), s)
  /\ false = false /\ true = true.
Proof.
  apply (and_or_truth_table
           (mkState [ErrImpl (JsString "e"); OkImpl (JsString "x")] []) 0 1
           (ErrImpl (JsString "e")) (OkImpl (JsString "x"))).
  - reflexivity.
  - exists "Err"%string. reflexivity.
  - reflexivity.
  - exists "Ok"%string. reflexivity.
Defined.

(** ** Chains *)

(** What [andThen] and [orElse] return and leave in the store does not
    depend on the log. *)
Lemma andThen_log (r : JsValue) (g : Fn) (h : list Obj)
    (log1 log2 : list (list JsValue)) :
  (Result.andThen r g (mkState h log1)).1
    = (Result.andThen r g (mkState h log2)).1
  /\ heap (Result.andThen r g (mkState h log1)).2
     = heap (Result.andThen r g (mkState h log2)).2.
Proof.
  unfold Result.andThen, Result.dispatch.
  destruct r as [q|fn|l]; try (split; reflexivity).
  cbn [heap]. destruct (h !! l) as [[v|e| | | |]|] eqn:Hl;
    try (split; reflexivity).
  unfold OkImpl.andThen, OkImpl.get_value, bind, call. cbn [heap].
  rewrite Hl. destruct (g v h). split; reflexivity.
Qed.

Lemma orElse_log (r : JsValue) (g : Fn) (h : list Obj)
    (log1 log2 : list (list JsValue)) :
  (Result.orElse r g (mkState h log1)).1
    = (Result.orElse r g (mkState h log2)).1
  /\ heap (Result.orElse r g (mkState h log1)).2
     = heap (Result.orElse r g (mkState h log2)).2.
Proof.
  unfold Result.orElse, Result.dispatch.
  destruct r as [q|fn|l]; try (split; reflexivity).
  cbn [heap]. destruct (h !! l) as [[v|e| | | |]|] eqn:Hl;
    try (split; reflexivity).
  unfold ErrImpl.orElse, ErrImpl.get_error, bind, call. cbn [heap].
  rewrite Hl. destruct (g e h). split; reflexivity.
Qed.

(** The call of a closure whose body calls [f] and goes on with [k]. *)
Lemma call_closure (f : Fn) (k : JsValue -> M JsValue) (p : JsValue)
    (s : State) :
  call (closure (fun x => r1 <- call f x ;; k r1)) p s
  = match f p (heap s) with
    | (Normal r1, h1) =>
        let '(c, s2) := k r1 (mkState h1 [[p]]) in
        (c, mkState (heap s2) ([p] :: invoked s))
    | (Throw e, h1) => (Throw e, mkState h1 ([p] :: invoked s))
    end.
Proof.
  unfold closure, bind. unfold call. cbn [heap invoked].
  destruct (f p (heap s)) as [[r1|e] h1]; [|reflexivity].
  destruct (k r1 (mkState h1 [[p]])) as [c s2]. reflexivity.
Qed.

Lemma bind_call (f : Fn) (k : JsValue -> M JsValue) (p : JsValue)
    (s : State) :
  (r1 <- call f p ;; k r1) s
  = match f p (heap s) with
    | (Normal r1, h1) => k r1 (mkState h1 ([p] :: invoked s))
    | (Throw e, h1) => (Throw e, mkState h1 ([p] :: invoked s))
    end.
Proof.
  unfold bind, call. destruct (f p (heap s)) as [[r1|e] h1]; reflexivity.
Qed.

(** X8: chains associate.  [r.andThen(f).andThen(g)] and
    [r.andThen(x => f(x).andThen(g))] complete alike (same value or same
    throw) and leave the same store, for all [f] and [g]; and so do
    [r.orElse(f).orElse(g)] and [r.orElse(x => f(x).orElse(g))]. *)
Theorem chains_associate (s : State) (this : nat) (o : Obj) (f g : Fn) :
  heap s !! this = Some o ->
  is_Some (_tag o) ->
  let r := JsObject this in
  let flat := (r1 <- Result.andThen r f ;; Result.andThen r1 g) s in
  let nested :=
    Result.andThen r
      (closure (fun x => r1 <- call f x ;; Result.andThen r1 g)) s in
  let flat' := (r1 <- Result.orElse r f ;; Result.orElse r1 g) s in
  let nested' :=
    Result.orElse r
      (closure (fun x => r1 <- call f x ;; Result.orElse r1 g)) s in
  (flat.1 = nested.1 /\ heap flat.2 = heap nested.2)
  /\ (flat'.1 = nested'.1 /\ heap flat'.2 = heap nested'.2).
Proof.
  intros Hthis Htag r flat nested flat' nested'.
  subst r flat nested flat' nested'.
  by_class o Htag p.
  - split.
    + rewrite (Ok_andThen s this p Hthis), call_closure.
      assert ((r1 <- Result.andThen (JsObject this) f ;; Result.andThen r1 g) s
              = (r1 <- call f p ;; Result.andThen r1 g) s) as ->.
      { unfold bind. rewrite (Ok_andThen s this p Hthis). reflexivity. }
      rewrite bind_call.
      destruct (f p (heap s)) as [[r1|e] h1]; [|split; reflexivity].
      destruct (andThen_log r1 g h1 ([p] :: invoked s) [[p]]) as [Hc Hh].
      destruct (Result.andThen r1 g (mkState h1 ([p] :: invoked s))) as [c1 s1].
      destruct (Result.andThen r1 g (mkState h1 [[p]])) as [c2 s2].
      simpl in *. auto.
    + unfold bind. rewrite !(Ok_orElse s this p Hthis). split; reflexivity.
  - split.
    + unfold bind. rewrite !(Err_andThen s this p Hthis). split; reflexivity.
    + rewrite (Err_orElse s this p Hthis), call_closure.
      assert ((r1 <- Result.orElse (JsObject this) f ;; Result.orElse r1 g) s
              = (r1 <- call f p ;; Result.orElse r1 g) s) as ->.
      { unfold bind. rewrite (Err_orElse s this p Hthis). reflexivity. }
      rewrite bind_call.
      destruct (f p (heap s)) as [[r1|e] h1]; [|split; reflexivity].
      destruct (orElse_log r1 g h1 ([p] :: invoked s) [[p]]) as [Hc Hh].
      destruct (Result.orElse r1 g (mkState h1 ([p] :: invoked s))) as [c1 s1].
      destruct (Result.orElse r1 g (mkState h1 [[p]])) as [c2 s2].
      simpl in *. auto.
Qed.

Lemma chains_associate_witness :
  let s := mkState [OkImpl (JsString "v")] [] in
  let r := JsObject 0 in
  let f := closure Ok in
  let g := closure Err in
  let flat := (r1 <- Result.andThen r f ;; Result.andThen r1 g) s in
  let nested :=
    Result.andThen r
      (closure (fun x => r1 <- call f x ;; Result.andThen r1 g)) s in
  let flat' := (r1 <- Result.orElse r f ;; Result.orElse r1 g) s in
  let nested' :=
    Result.orElse r
      (closure (fun x => r1 <- call f x ;; Result.orElse r1 g)) s in
  (flat.1 = nested.1 /\ heap flat.2 = heap nested.2)
  /\ (flat'.1 = nested'.1 /\ heap flat'.2 = heap nested'.2).
Proof.
  apply (chains_associate (mkState [OkImpl (JsString "v")] []) 0
           (OkImpl (JsString "v")) (closure Ok) (closure Err)).
  - reflexivity.
  - exists "Ok"%string. reflexivity.
Defined.

Lemma call_closure_Ok (p : JsValue) (s : State) :
  call (closure Ok) p s
  = (Normal (JsObject (length (heap s))),
     mkState (heap s ++ [OkImpl p]) ([p] :: invoked s)).
Proof. reflexivity. Qed.

Lemma call_closure_Err (p : JsValue) (s : State) :
  call (closure Err) p s
  = (Normal (JsObject (length (heap s))),
     mkState (heap s ++ [ErrImpl p]) ([p] :: invoked s)).
Proof. reflexivity. Qed.

Lemma yields_this (s : State) (this : nat) (o : Obj) :
  heap s !! this = Some o -> yields (ret (JsObject this)) s o.
Proof. intros H. exists this, s. split; [reflexivity|exact H]. Qed.

(** X9: the factories are units of the chains.  [r.andThen(x => Ok(x))]
    and [r.orElse(e => Err(e))] are a [Result] with the tag and the
    payload of [r]. *)
Theorem chain_with_factory (s : State) (this : nat) (o : Obj) :
  heap s !! this = Some o ->
  is_Some (_tag o) ->
  yields (Result.andThen (JsObject this) (closure Ok)) s o
  /\ yields (Result.orElse (JsObject this) (closure Err)) s o.
Proof.
  intros Hthis Htag. unfold yields. by_class o Htag p.
  - rewrite (Ok_andThen s this p Hthis), (Ok_orElse s this p Hthis),
      call_closure_Ok.
    split; do 2 eexists; (split; [reflexivity|]);
      [apply lookup_new | exact Hthis].
  - rewrite (Err_andThen s this p Hthis), (Err_orElse s this p Hthis),
      call_closure_Err.
    split; do 2 eexists; (split; [reflexivity|]);
      [exact Hthis | apply lookup_new].
Qed.

Lemma chain_with_factory_witness :
  let s := mkState [ErrImpl (JsString "e")] [] in
  yields (Result.andThen (JsObject 0) (closure Ok)) s (ErrImpl (JsString "e"))
  /\ yields (Result.orElse (JsObject 0) (closure Err)) s
       (ErrImpl (JsString "e")).
Proof.
  apply (chain_with_factory (mkState [ErrImpl (JsString "e")] []) 0
           (ErrImpl (JsString "e"))).
  - reflexivity.
  - exists "Err"%string. reflexivity.
Defined.

(** X10: the maps are chains that rewrap.  For a pure [f], [r.map(f)] is
    the [Result] that [r.andThen(x => Ok(f(x)))] is, and [r.mapErr(f)]
    the one that [r.orElse(e => Err(f(e)))] is: same tag, same
    payload. *)
Theorem maps_are_chains (s : State) (this : nat) (o : Obj)
    (f : JsValue -> JsValue) :
  heap s !! this = Some o ->
  is_Some (_tag o) ->
  let mapped := if is_Ok o then OkImpl (f (payload o)) else o in
  let mapped' := if is_Ok o then o else ErrImpl (f (payload o)) in
  (yields (Result.map (JsObject this) (pure_fn f)) s mapped
   /\ yields (Result.andThen (JsObject this) (closure (fun x => Ok (f x)))) s
        mapped)
  /\ (yields (Result.mapErr (JsObject this) (pure_fn f)) s mapped'
      /\ yields (Result.orElse (JsObject this) (closure (fun e => Err (f e))))
           s mapped').
Proof.
  intros Hthis Htag mapped mapped'. subst mapped mapped'. unfold yields.
  by_class o Htag p; cbn [is_Ok payload].
  - rewrite (Ok_map_pure s this p f Hthis), (Ok_andThen s this p Hthis),
      (Ok_mapErr s this p Hthis), (Ok_orElse s this p Hthis).
    repeat split; do 2 eexists; (split; [reflexivity|]);
      first [apply lookup_new | exact Hthis].
  - rewrite (Err_mapErr_pure s this p f Hthis), (Err_andThen s this p Hthis),
      (Err_map s this p Hthis), (Err_orElse s this p Hthis).
    repeat split; do 2 eexists; (split; [reflexivity|]);
      first [apply lookup_new | exact Hthis].
Qed.

Lemma maps_are_chains_witness :
  let s := mkState [OkImpl (JsString "v")] [] in
  let f := fun _ : JsValue => JsNull in
  (yields (Result.map (JsObject 0) (pure_fn f)) s (OkImpl JsNull)
   /\ yields (Result.andThen (JsObject 0) (closure (fun x => Ok (f x)))) s
        (OkImpl JsNull))
  /\ (yields (Result.mapErr (JsObject 0) (pure_fn f)) s (OkImpl (JsString "v"))
      /\ yields (Result.orElse (JsObject 0) (closure (fun e => Err (f e))))
           s (OkImpl (JsString "v"))).
Proof.
  apply (maps_are_chains (mkState [OkImpl (JsString "v")] []) 0
           (OkImpl (JsString "v")) (fun _ => JsNull)).
  - reflexivity.
  - exists "Ok"%string. reflexivity.
Defined.

(** X11: [map] and [mapErr] commute.  For pure [f] and [g],
    [r.map(f).mapErr(g)] and [r.mapErr(g).map(f)] are the same [Result]:
    an [Ok] with [f] applied to the value, or an [Err] with [g] applied
    to the error. *)
Theorem map_mapErr_commute (s : State) (this : nat) (o : Obj)
    (f g : JsValue -> JsValue) :
  heap s !! this = Some o ->
  is_Some (_tag o) ->
  let both :=
    if is_Ok o then OkImpl (f (payload o)) else ErrImpl (g (payload o)) in
  yields (r1 <- Result.map (JsObject this) (pure_fn f) ;;
          Result.mapErr r1 (pure_fn g)) s both
  /\ yields (r1 <- Result.mapErr (JsObject this) (pure_fn g) ;;
             Result.map r1 (pure_fn f)) s both.
Proof.
  intros Hthis Htag both. subst both. unfold yields, bind.
  by_class o Htag p; cbn [is_Ok payload].
  - rewrite (Ok_map_pure s this p f Hthis), (Ok_mapErr s this p Hthis).
    erewrite Ok_mapErr by apply lookup_new.
    rewrite (Ok_map_pure s this p f Hthis).
    split; do 2 eexists; (split; [reflexivity|]); apply lookup_new.
  - rewrite (Err_mapErr_pure s this p g Hthis), (Err_map s this p Hthis).
    erewrite Err_map by apply lookup_new.
    rewrite (Err_mapErr_pure s this p g Hthis).
    split; do 2 eexists; (split; [reflexivity|]); apply lookup_new.
Qed.

Lemma map_mapErr_commute_witness :
  let s := mkState [ErrImpl (JsString "e")] [] in
  let f := fun _ : JsValue => JsNull in
  let g := fun _ : JsValue => JsUndefined in
  yields (r1 <- Result.map (JsObject 0) (pure_fn f) ;;
          Result.mapErr r1 (pure_fn g)) s (ErrImpl JsUndefined)
  /\ yields (r1 <- Result.mapErr (JsObject 0) (pure_fn g) ;;
             Result.map r1 (pure_fn f)) s (ErrImpl JsUndefined).
Proof.
  apply (map_mapErr_commute (mkState [ErrImpl (JsString "e")] []) 0
           (ErrImpl (JsString "e")) (fun _ => JsNull) (fun _ => JsUndefined)).
  - reflexivity.
  - exists "Err"%string. reflexivity.
Defined.

(** ** All the methods at once *)

Ltac eval_Ok host s this p H :=
  let E1 := fresh in
  let E2 := fresh in
  destruct (Ok_isOk s this p H) as [E1 E2];
  cbn [invoke];
  rewrite ?E1, ?E2, ?(Ok_map s this p H), ?(Ok_mapErr s this p H),
    ?(Ok_unwrap host s this p H), ?(Ok_unwrapErr host s this p H),
    ?(fun d => Ok_unwrapOr s this p d H),
    ?(fun op => Ok_unwrapOrElse s this p op H),
    ?(Ok_andThen s this p H), ?(Ok_orElse s this p H),
    ?(fun f g => Ok_match s this p f g H),
    ?(Ok_and s this p H), ?(Ok_or s this p H),
    ?(fun d f => Ok_mapOr s this p d f H),
    ?(fun g f => Ok_mapOrElse s this p g f H);
  clear E1 E2.

Ltac eval_Err host s this p H :=
  let E1 := fresh in
  let E2 := fresh in
  destruct (Err_isOk s this p H) as [E1 E2];
  cbn [invoke];
  rewrite ?E1, ?E2, ?(Err_map s this p H), ?(Err_mapErr s this p H),
    ?(Err_unwrap host s this p H), ?(Err_unwrapErr host s this p H),
    ?(fun d => Err_unwrapOr s this p d H),
    ?(fun op => Err_unwrapOrElse s this p op H),
    ?(Err_andThen s this p H), ?(Err_orElse s this p H),
    ?(fun f g => Err_match s this p f g H),
    ?(Err_and s this p H), ?(Err_or s this p H),
    ?(fun d f => Err_mapOr s this p d f H),
    ?(fun g f => Err_mapOrElse s this p g f H);
  clear E1 E2.

Ltac eval_method host s this o p Hthis Htag :=
  by_class o Htag p;
  [eval_Ok host s this p Hthis | eval_Err host s this p Hthis].

(** The code that the host runs on an object is none of the functions
    handed to a method: [formatValue] leaves the log as it is. *)
Lemma formatValue_invoked (host : HostObjects) (value : JsValue) (s : State) :
  invoked (formatValue host value s).2 = invoked s.
Proof.
  destruct value as [[| |b|n|str|z|d]|f|l]; try reflexivity.
  unfold formatValue, try_catch, bind, JSON_stringify,
    Object_prototype_toString, host_op.
  destruct (JSON_stringify_object host l (heap s)) as [[[text|]|x] h1];
    try reflexivity.
  cbn [heap invoked].
  destruct (Object_toString_object host l h1) as [[tag|y] h2]; reflexivity.
Qed.

(** Whether a failing extractor builds the default message. *)
Ltac by_message host msg p s :=
  let Hlog := fresh "Hlog" in
  pose proof (formatValue_invoked host p s) as Hlog;
  destruct msg;
  try (destruct (formatValue host p s) as [[? | ?] ?]; cbn [snd] in Hlog).

(** X12: the log of a method call.  A method calls at most one of the
    functions it is given, at most once, and always on the payload of the
    receiver; which methods call is fixed by the class of the receiver
    ([invokes_callback]).  This holds whether the function returns or
    throws. *)
Theorem callbacks_logged (host : HostObjects) (s : State) (this : nat)
    (o : Obj) (m : Method) :
  heap s !! this = Some o ->
  is_Some (_tag o) ->
  invoked (invoke host (JsObject this) m s).2
  = if invokes_callback o m then [payload o] :: invoked s else invoked s.
Proof.
  intros Hthis Htag.
  destruct m; eval_method host s this o p Hthis Htag;
    cbn [invokes_callback payload];
    try reflexivity;
    try (by_message host msg p s; cbn [snd invoked]; congruence);
    unfold bind, call, OkImpl.constructor, ErrImpl.constructor, new;
    match goal with
    | |- context [?f ?x (heap s)] =>
        destruct (f x (heap s)) as [[u|e] h']; reflexivity
    end.
Qed.

Lemma callbacks_logged_witness :
  let host := throwing_host JsNull JsNull in
  let s := mkState [ErrImpl (JsString "e")] [] in
  invoked (invoke host (JsObject 0) (Call_map (const_fn JsNull)) s).2 = []
  /\ invoked (invoke host (JsObject 0) (Call_orElse (closure Ok)) s).2
     = [[JsString "e"]].
Proof.
  split.
  - apply (callbacks_logged (throwing_host JsNull JsNull)
             (mkState [ErrImpl (JsString "e")] []) 0
             (ErrImpl (JsString "e")) (Call_map (const_fn JsNull))).
    + reflexivity.
    + exists "Err"%string. reflexivity.
  - apply (callbacks_logged (throwing_host JsNull JsNull)
             (mkState [ErrImpl (JsString "e")] []) 0
             (ErrImpl (JsString "e")) (Call_orElse (closure Ok))).
    + reflexivity.
    + exists "Err"%string. reflexivity.
Defined.

(** X13: the library throws nowhere but in the two extractors.  With
    functions that always return, a method call on a [Result] completes
    abruptly exactly when it is [unwrap] on an [Err] or [unwrapErr] on an
    [Ok]. *)
Theorem only_unwrap_throws (host : HostObjects) (s : State) (this : nat)
    (o : Obj) (m : Method) :
  heap s !! this = Some o ->
  is_Some (_tag o) ->
  Forall never_throws (callbacks m) ->
  (exists e s', invoke host (JsObject this) m s = (Throw e, s'))
  <-> match o, m with
      | ErrImpl _, Call_unwrap _ | OkImpl _, Call_unwrapErr _ => True
      | _, _ => False
      end.
Proof.
  intros Hthis Htag Hcb.
  destruct m; cbn [callbacks] in Hcb;
    repeat match goal with
           | H : Forall _ (_ :: _) |- _ =>
               apply Forall_cons in H; destruct H
           end;
    eval_method host s this o p Hthis Htag;
    try (split; [intros _; exact I | intros _];
         by_message host msg p s; eauto; fail);
    unfold bind, call, OkImpl.constructor, ErrImpl.constructor, new;
    repeat match goal with
           | H : never_throws ?f |- context [?f ?x (heap s)] =>
               let v := fresh "v" in
               let h' := fresh "h'" in
               let E := fresh "E" in
               destruct (H x (heap s)) as (v & h' & E); rewrite E; clear H
           end;
    (split; [intros (e & s' & Hrun); try discriminate Hrun; exact I
            | intros Hm; try contradiction; eauto]).
Qed.

Lemma const_fn_never_throws (d : JsValue) : never_throws (const_fn d).
Proof. intros x h. exists d, h. reflexivity. Qed.

Lemma only_unwrap_throws_witness :
  let host := throwing_host JsNull JsNull in
  let s := mkState [OkImpl (JsString "v")] [] in
  (exists e s',
     invoke host (JsObject 0) (Call_map (const_fn JsNull)) s = (Throw e, s'))
  <-> False.
Proof.
  apply (only_unwrap_throws (throwing_host JsNull JsNull)
           (mkState [OkImpl (JsString "v")] []) 0
           (OkImpl (JsString "v")) (Call_map (const_fn JsNull))).
  - reflexivity.
  - exists "Ok"%string. reflexivity.
  - repeat constructor. apply const_fn_never_throws.
Defined.

(** ** More on [formatValue] *)



(** X16: a method call that calls no function and is not a failing
    extractor has no effect at all: it returns normally and the state
    (store and log) is the one it started in, whatever functions were
    passed.  So the guards, [unwrapOr], [and], [or] and every
    short-circuiting call allocate nothing. *)
Theorem quiet_methods (host : HostObjects) (s : State) (this : nat)
    (o : Obj) (m : Method) :
  heap s !! this = Some o ->
  is_Some (_tag o) ->
  invokes_callback o m = false ->
  failing_extractor o m = false ->
  exists v, invoke host (JsObject this) m s = (Normal v, s).
Proof.
  intros Hthis Htag Hquiet Hextract.
  destruct m; eval_method host s this o p Hthis Htag;
    cbn [invokes_callback failing_extractor] in Hquiet, Hextract;
    try discriminate; eauto.
Qed.

Lemma quiet_methods_witness :
  let host := throwing_host JsNull JsNull in
  let s := mkState [ErrImpl (JsString "e")] [] in
  exists v,
    invoke host (JsObject 0) (Call_andThen (closure Ok)) s = (Normal v, s).
Proof.
  apply (quiet_methods (throwing_host JsNull JsNull)
           (mkState [ErrImpl (JsString "e")] []) 0
           (ErrImpl (JsString "e")) (Call_andThen (closure Ok)));
    [reflexivity | exists "Err"%string; reflexivity | reflexivity
    | reflexivity].
Defined.
